(** * imgScale: the bounded LRU cache and its backing stores

    A shallow embedding of [internal/cache/lru.go], [internal/storage/memory.go],
    [internal/storage/file.go], the [Storage] interface and the request
    handler of [server/main.go], with the parts of the Go standard library
    they call ([strings], [strconv], [context], [errors], [fmt], [os],
    [path/filepath], [container/list], [io], [net/http]) modelled alongside. *)

From Stdlib Require Import ZArith Lia Ascii String.
From stdpp Require Import base option list strings gmap.

Local Open Scope Z_scope.

(** ** Byte slices *)

(** Go's [[]byte]. *)
Abbreviation bytes := (list Byte.byte).

(** The conversion [[]byte("...")]. *)
Definition bytes_of (s : string) : bytes := String.list_byte_of_string s.

(** ** Package [strings] *)

Module strings.

(** [strings.ReplaceAll s old new] for a non-empty [old]: the occurrences of
    [old] are found left to right and do not overlap.  [skip] counts the
    bytes of the occurrence just replaced that are still to be dropped.
    (An empty [old] matches between runes in Go; the program never passes
    one, and the model leaves the string as it is there.) *)
Fixpoint replace_from (old new : string) (skip : nat) (s : string) : string :=
  match s with
  | EmptyString => EmptyString
  | String c s' =>
      match skip with
      | S k => replace_from old new k s'
      | O =>
          if String.prefix old s
          then new +:+ replace_from old new (String.length old - 1) s'
          else String c (replace_from old new O s')
      end
  end.

Definition ReplaceAll (s old new : string) : string :=
  match old with
  | EmptyString => s
  | _ => replace_from old new O s
  end.

(** Membership of a byte in a cutset of ASCII characters. *)
Fixpoint in_cutset (c : ascii) (cutset : string) : bool :=
  match cutset with
  | EmptyString => false
  | String d rest => if Ascii.eqb c d then true else in_cutset c rest
  end.

(** [strings.TrimLeft s cutset]: drop the leading bytes that are in
    [cutset]. *)
Fixpoint TrimLeft (s cutset : string) : string :=
  match s with
  | EmptyString => EmptyString
  | String c s' => if in_cutset c cutset then TrimLeft s' cutset else s
  end.

(** [strings.Split s sep] for a one-byte separator: the pieces between the
    separators, empty pieces included. *)
Fixpoint Split (s : string) (sep : ascii) : list string :=
  match s with
  | EmptyString => [EmptyString]
  | String c s' =>
      if Ascii.eqb c sep then EmptyString :: Split s' sep
      else
        match Split s' sep with
        | piece :: pieces => String c piece :: pieces
        | [] => [String c EmptyString]
        end
  end.

(** [strings.Join elems sep]. *)
Fixpoint Join (elems : list string) (sep : string) : string :=
  match elems with
  | [] => EmptyString
  | [e] => e
  | e :: rest => e +:+ sep +:+ Join rest sep
  end.

End strings.

(** ** Package [strconv] *)

Module strconv.

(** The value of a decimal digit. *)
Definition digit (c : ascii) : option Z :=
  let n := Z.of_nat (nat_of_ascii c) in
  if decide (48 <= n <= 57) then Some (n - 48) else None.

Fixpoint digits (s : string) (acc : Z) : option Z :=
  match s with
  | EmptyString => Some acc
  | String c s' =>
      match digit c with
      | Some d => digits s' (acc * 10 + d)
      | None => None
      end
  end.

(** [strconv.Atoi]: an optional sign, then one decimal digit or more, the
    value fitting an [int].  [None] stands for the error, a syntax error or a
    range error: the program looks only at whether there is one. *)
Definition Atoi (s : string) : option Z :=
  let '(neg, body) :=
    match s with
    | String "-" s' => (true, s')
    | String "+" s' => (false, s')
    | _ => (false, s)
    end in
  if decide (body = "") then None
  else
    match digits body 0 with
    | None => None
    | Some n =>
        let v := if neg : bool then - n else n in
        if decide (- 2 ^ 63 <= v < 2 ^ 63) then Some v else None
    end.

End strconv.

(** ** Errors *)

(** Error numbers of the system calls the file store can see. *)
Inductive Errno := ENOENT | ENOTDIR | EISDIR | ENOTEMPTY | EBUSY.

Definition Errno_Error (e : Errno) : string :=
  match e with
  | ENOENT => "no such file or directory"
  | ENOTDIR => "not a directory"
  | EISDIR => "is a directory"
  | ENOTEMPTY => "directory not empty"
  | EBUSY => "device or resource busy"
  end.

(** A path of the file tree: the names from the root down.  Paths are kept
    cleaned, as [filepath.Join] returns them. *)
Abbreviation path := (list string).

Definition path_string (p : path) : string :=
  foldr (fun name acc => "/" +:+ name +:+ acc) "" p.

(** Go [error] values.  The sentinels are compared by identity in Go
    ([errors.Is]), so each one is a constructor of its own. *)
Inductive error :=
| ErrNotExist                                   (* os.ErrNotExist *)
| Canceled                                      (* context.Canceled *)
| DeadlineExceeded                              (* context.DeadlineExceeded *)
| errorString (s : string)                      (* errors.New(s) *)
| PathError (op : string) (p : path) (e : Errno) (* *fs.PathError *)
| wrapError (msg : string) (err : error).       (* fmt.Errorf("...%w", err) *)

(** The [Error()] method. *)
Definition Error (e : error) : string :=
  match e with
  | ErrNotExist => "file does not exist"
  | Canceled => "context canceled"
  | DeadlineExceeded => "context deadline exceeded"
  | errorString s => s
  | PathError op p en => op +:+ " " +:+ path_string p +:+ ": " +:+ Errno_Error en
  | wrapError msg _ => msg
  end.

(** [fmt.Errorf(prefix + "%w", err)]: the message is formatted once, when the
    error is made. *)
Definition Errorf_w (prefix : string) (err : error) : error :=
  wrapError (prefix +:+ Error err) err.

(** [os.IsNotExist]: it looks at the error itself (after unwrapping a
    [PathError]), not through [%w] wrappers. *)
Definition IsNotExist (err : option error) : bool :=
  match err with
  | Some ErrNotExist => true
  | Some (PathError _ _ ENOENT) => true
  | _ => false
  end.

(** ** Package [context] *)

(** The state of the caller's context when an operation looks at it. *)
Inductive Context := Background | Cancelled | Expired.

(** [ctx.Err()]. *)
Definition Err (ctx : Context) : option error :=
  match ctx with
  | Background => None
  | Cancelled => Some Canceled
  | Expired => Some DeadlineExceeded
  end.

(** ** [FileStorage.sanitizeKey] *)

Definition sanitizeKey (key : string) : string :=
  if decide (key = "") then "empty"
  else
    let key := strings.ReplaceAll key ":" "_" in
    let key := strings.ReplaceAll key "/" "_" in
    let key := strings.ReplaceAll key "\" "_" in
    let key := strings.ReplaceAll key ".." "__" in
    strings.TrimLeft key "_".

(** ** Go's [int] *)

(** [int] is 64 bits wide on the platforms the server is built for; sums
    wrap around. *)
Definition wrap (z : Z) : Z := (z + 2 ^ 63) mod 2 ^ 64 - 2 ^ 63.

Definition int_add (x y : Z) : Z := wrap (x + y).

(** ** Package [io] *)

(** An [io.ReadCloser], seen through what [io.ReadAll] gets out of it: the
    bytes read and the error that ended the read, if any. *)
Record ReadCloser := { rc_data : bytes; rc_err : option error }.

Definition ReadAll (r : ReadCloser) : bytes * option error :=
  (rc_data r, rc_err r).

(** [io.NopCloser(bytes.NewReader(b))]. *)
Definition NopCloser (b : bytes) : ReadCloser :=
  {| rc_data := b; rc_err := None |}.

(** ** Package [path/filepath] *)

Module filepath.

(** One step of [Clean] on a rooted path. *)
Definition clean_step (p : path) (name : string) : path :=
  if decide (name = "") then p
  else if decide (name = ".") then p
  else if decide (name = "..") then removelast p
  else p ++ [name].

(** [filepath.Join(base, elem)] for a cleaned rooted [base]. *)
Definition Join (base : path) (elem : string) : path :=
  foldl clean_step base (strings.Split elem "/").

(** [filepath.Dir]. *)
Definition Dir (p : path) : path := removelast p.

End filepath.

(** ** Package [os]: the file tree *)

Module os.

(** Regular files with their contents, and directories. *)
Record FileSys := { files : gmap path bytes; dirs : gset path }.

Definition is_file (p : path) (fs : FileSys) : bool :=
  bool_decide (is_Some (files fs !! p)).

Definition is_dir (p : path) (fs : FileSys) : bool :=
  bool_decide (p ∈ dirs fs).

(** The proper ancestors of a path, root first. *)
Definition ancestors (p : path) : list path :=
  (fun n => take n p) <$> seq 0 (length p).

(** The error number of a failed lookup: a regular file on the way gives
    [ENOTDIR], a missing name [ENOENT]. *)
Definition lookup_errno (p : path) (fs : FileSys) : Errno :=
  if existsb (fun q => is_file q fs) (ancestors p) then ENOTDIR else ENOENT.

Definition Stat (p : path) (fs : FileSys) : option error :=
  if is_file p fs || is_dir p fs then None
  else Some (PathError "stat" p (lookup_errno p fs)).

(** [os.MkdirAll]: every missing directory from the root down to [p] is
    made; a regular file on the way stops it. *)
Fixpoint mkdir_each (ps : list path) (fs : FileSys) : option error * FileSys :=
  match ps with
  | [] => (None, fs)
  | q :: rest =>
      if is_file q fs then (Some (PathError "mkdir" q ENOTDIR), fs)
      else mkdir_each rest {| files := files fs; dirs := {[q]} ∪ dirs fs |}
  end.

Definition MkdirAll (p : path) (fs : FileSys) : option error * FileSys :=
  mkdir_each (ancestors p ++ [p]) fs.

(** [os.WriteFile]: create or truncate, then write. *)
Definition WriteFile (p : path) (data : bytes) (fs : FileSys)
  : option error * FileSys :=
  if is_dir p fs then (Some (PathError "open" p EISDIR), fs)
  else if is_file p fs || is_dir (filepath.Dir p) fs
  then (None, {| files := <[p := data]> (files fs); dirs := dirs fs |})
  else (Some (PathError "open" p (lookup_errno p fs)), fs).

Definition has_children (p : path) (fs : FileSys) : bool :=
  existsb (fun q => bool_decide (q ≠ [] ∧ filepath.Dir q = p))
          (elements (dom (files fs) ∪ dirs fs)).

(** [os.Remove]: a file, or an empty directory. *)
Definition Remove (p : path) (fs : FileSys) : option error * FileSys :=
  if is_file p fs
  then (None, {| files := delete p (files fs); dirs := dirs fs |})
  else if is_dir p fs then
    if has_children p fs then (Some (PathError "remove" p ENOTEMPTY), fs)
    else if decide (p = []) then (Some (PathError "remove" p EBUSY), fs)
    else (None, {| files := files fs; dirs := dirs fs ∖ {[p]} |})
  else (Some (PathError "remove" p (lookup_errno p fs)), fs).

(** [os.Open]: a directory opens too, and fails when it is read. *)
Definition Open (p : path) (fs : FileSys) : ReadCloser + error :=
  match files fs !! p with
  | Some content => inl {| rc_data := content; rc_err := None |}
  | None =>
      if is_dir p fs
      then inl {| rc_data := []; rc_err := Some (PathError "read" p EISDIR) |}
      else inr (PathError "open" p (lookup_errno p fs))
  end.

End os.

(** ** The [Storage] interface *)

(** The receiver is threaded through every method: an implementation may
    change on any call.  [Get] returns the reader or the error ([(r, nil)] or
    [(nil, err)] in Go); [Size] takes no context and returns no error. *)
Class Storage (S : Type) := {
  Storage_Get : Context -> string -> S -> (ReadCloser + error) * S;
  Storage_Set : Context -> string -> bytes -> S -> option error * S;
  Storage_Delete : Context -> string -> S -> option error * S;
  Storage_Size : S -> Z * S
}.

Global Hint Mode Storage ! : typeclass_instances.

(** ** [MemoryStorage] *)

Module MemoryStorage.

Record t := { data : gmap string bytes }.

Definition New : t := {| data := ∅ |}.

Definition Get (ctx : Context) (key : string) (s : t)
  : (ReadCloser + error) * t :=
  match Err ctx with
  | Some err => (inr err, s)
  | None =>
      match data s !! key with
      | None => (inr ErrNotExist, s)
      | Some d => (inl (NopCloser d), s)
      end
  end.

Definition Set_ (ctx : Context) (key : string) (d : bytes) (s : t)
  : option error * t :=
  match Err ctx with
  | Some err => (Some err, s)
  | None => (None, {| data := <[key := d]> (data s) |})
  end.

Definition Delete (ctx : Context) (key : string) (s : t)
  : option error * t :=
  match Err ctx with
  | Some err => (Some err, s)
  | None => (None, {| data := delete key (data s) |})
  end.

Definition Size (s : t) : Z * t := (Z.of_nat (size (data s)), s).

End MemoryStorage.

#[export] Instance MemoryStorage_Storage : Storage MemoryStorage.t := {
  Storage_Get := MemoryStorage.Get;
  Storage_Set := MemoryStorage.Set_;
  Storage_Delete := MemoryStorage.Delete;
  Storage_Size := MemoryStorage.Size
}.

(** ** [FileStorage] *)

Module FileStorage.

(** The struct, and the file tree its methods work on. *)
Record t := { baseDir : path; size : Z }.

Definition state : Type := t * os.FileSys.

Definition Get (ctx : Context) (key : string) (st : state)
  : (ReadCloser + error) * state :=
  let '(s, fs) := st in
  match Err ctx with
  | Some err => (inr err, st)
  | None =>
      let safeKey := sanitizeKey key in
      let path := filepath.Join (baseDir s) safeKey in
      match os.Open path fs with
      | inr err =>
          if IsNotExist (Some err) then (inr ErrNotExist, st)
          else (inr (Errorf_w "failed to open file: " err), st)
      | inl file => (inl file, st)
      end
  end.

Definition Set_ (ctx : Context) (key : string) (d : bytes) (st : state)
  : option error * state :=
  let '(s, fs) := st in
  match Err ctx with
  | Some err => (Some err, st)
  | None =>
      let safeKey := sanitizeKey key in
      let path := filepath.Join (baseDir s) safeKey in
      let err := os.Stat path fs in
      let exists_ := negb (IsNotExist err) in
      match os.MkdirAll (filepath.Dir path) fs with
      | (Some err, fs1) =>
          (Some (Errorf_w "failed to create directories: " err), (s, fs1))
      | (None, fs1) =>
          match os.WriteFile path d fs1 with
          | (Some err, fs2) =>
              (Some (Errorf_w "failed to write file: " err), (s, fs2))
          | (None, fs2) =>
              if negb exists_
              then (None, ({| baseDir := baseDir s;
                              size := int_add (size s) 1 |}, fs2))
              else (None, (s, fs2))
          end
      end
  end.

Definition Delete (ctx : Context) (key : string) (st : state)
  : option error * state :=
  let '(s, fs) := st in
  match Err ctx with
  | Some err => (Some err, st)
  | None =>
      let safeKey := sanitizeKey key in
      let path := filepath.Join (baseDir s) safeKey in
      if IsNotExist (os.Stat path fs) then (None, st)
      else
        match os.Remove path fs with
        | (Some err, fs1) =>
            (Some (Errorf_w "failed to delete file: " err), (s, fs1))
        | (None, fs1) =>
            (None, ({| baseDir := baseDir s;
                       size := int_add (size s) (-1) |}, fs1))
        end
  end.

Definition Size (st : state) : Z * state := (size (fst st), st).

End FileStorage.

#[export] Instance FileStorage_Storage : Storage FileStorage.state := {
  Storage_Get := FileStorage.Get;
  Storage_Set := FileStorage.Set_;
  Storage_Delete := FileStorage.Delete;
  Storage_Size := FileStorage.Size
}.

(** ** Package [container/list] *)

(** What the cache keeps in a list element ([elem.Value.( *cacheItem)]). *)
Record cacheItem := { key : string; value : bytes }.

(** A list element.  Elements are heap objects and the cache refers to them by
    pointer, so each carries its address [ptr]; the list is the sequence of
    its elements, front first. *)
Record Element := { ptr : nat; Value : cacheItem }.

Module container_list.

Definition Len (l : list Element) : Z := Z.of_nat (length l).

(** [l.Back()]: the last element, or nil. *)
Definition Back (l : list Element) : option Element := last l.

(** The element at address [p], if it is in the list. *)
Fixpoint find_elem (p : nat) (l : list Element) : option Element :=
  match l with
  | [] => None
  | e :: rest => if decide (ptr e = p) then Some e else find_elem p rest
  end.

(** [l.Remove(e)]: unlink the element at address [p]; nothing happens when
    it is not an element of the list. *)
Fixpoint Remove (p : nat) (l : list Element) : list Element :=
  match l with
  | [] => []
  | e :: rest => if decide (ptr e = p) then rest else e :: Remove p rest
  end.

(** [l.MoveToFront(e)]: nothing happens when [e] is not an element of the
    list (or is already its front). *)
Definition MoveToFront (p : nat) (l : list Element) : list Element :=
  match find_elem p l with
  | Some e => e :: Remove p l
  | None => l
  end.

(** [l.PushFront(v)]: a new element, allocated at the fresh address
    [next]. *)
Definition PushFront (v : cacheItem) (next : nat) (l : list Element)
  : Element * list Element :=
  let e := {| ptr := next; Value := v |} in (e, e :: l).

(** The assignment [elem.Value.( *cacheItem).value = v] through the pointer
    [p]. *)
Fixpoint set_value (p : nat) (v : bytes) (l : list Element) : list Element :=
  match l with
  | [] => []
  | e :: rest =>
      if decide (ptr e = p)
      then {| ptr := p; Value := {| key := key (Value e); value := v |} |} :: rest
      else e :: set_value p v rest
  end.

End container_list.

(** ** [LRUCache] *)

Module LRUCache.
Import container_list.

Section WithStorage.
Context {S : Type} `{Storage S}.

(** The struct (the mutex apart).  [next] is the address the next
    [PushFront] allocates its element at. *)
Record t := {
  capacity : Z;
  list_ : list Element;
  items : gmap string nat;
  storage : S;
  next : nat
}.

Definition NewLRUCache (capacity : Z) (storage : S) : t :=
  {| capacity := capacity; list_ := []; items := ∅;
     storage := storage; next := O |}.

Definition with_storage (c : t) (s : S) : t :=
  {| capacity := capacity c; list_ := list_ c; items := items c;
     storage := s; next := next c |}.

Definition with_list (c : t) (l : list Element) : t :=
  {| capacity := capacity c; list_ := l; items := items c;
     storage := storage c; next := next c |}.

(** [elem := c.list.PushFront(item); c.items[key] = elem]. *)
Definition push (c : t) (item : cacheItem) : t :=
  let '(elem, l) := PushFront item (next c) (list_ c) in
  {| capacity := capacity c; list_ := l;
     items := <[key item := ptr elem]> (items c);
     storage := storage c; next := Datatypes.S (next c) |}.

Definition removeOldest (ctx : Context) (c : t) : option error * t :=
  match Back (list_ c) with
  | Some elem =>
      let item := Value elem in
      let '(err, s) := Storage_Delete ctx (key item) (storage c) in
      let c' := {| capacity := capacity c;
                   list_ := Remove (ptr elem) (list_ c);
                   items := delete (key item) (items c);
                   storage := s; next := next c |} in
      match err with
      | Some err => (Some (Errorf_w "failed to delete from storage: " err), c')
      | None => (None, c')
      end
  | None => (None, c)
  end.

(** [Get].  An address in [items] is always the address of a list element
    (see [wf]); the branch for one that is not stands for nothing in the
    Go code, and returns the empty reader. *)
Definition Get (ctx : Context) (k : string) (c : t)
  : (ReadCloser + error) * t :=
  match items c !! k with
  | Some p =>
      let l := MoveToFront p (list_ c) in
      match find_elem p l with
      | Some elem => (inl (NopCloser (value (Value elem))), with_list c l)
      | None => (inl (NopCloser []), with_list c l)
      end
  | None =>
      match Storage_Get ctx k (storage c) with
      | (inr err, s) => (inr err, with_storage c s)
      | (inl data, s) =>
          match ReadAll data with
          | (_, Some err) => (inr err, with_storage c s)
          | (v, None) =>
              let c1 := push (with_storage c s) {| key := k; value := v |} in
              if decide (Len (list_ c1) > capacity c1) then
                match removeOldest ctx c1 with
                | (Some err, c2) => (inr err, c2)
                | (None, c2) => (inl (NopCloser v), c2)
                end
              else (inl (NopCloser v), c1)
          end
      end
  end.

(** The loop [for c.list.Len() > c.capacity { ... }] of [Set].  Each
    iteration takes one unit of [fuel]; [None] says the fuel ran out
    before the loop was left. *)
Fixpoint evict (fuel : nat) (ctx : Context) (c : t) : option (option error * t) :=
  if decide (Len (list_ c) > capacity c) then
    match fuel with
    | O => None
    | Datatypes.S fuel' =>
        match removeOldest ctx c with
        | (Some err, c') => Some (Some err, c')
        | (None, c') => evict fuel' ctx c'
        end
    end
  else Some (None, c).

Definition Set_ (fuel : nat) (ctx : Context) (k : string) (v : bytes) (c : t)
  : option (option error * t) :=
  match Storage_Set ctx k v (storage c) with
  | (Some err, s) => Some (Some err, with_storage c s)
  | (None, s) =>
      let c := with_storage c s in
      match items c !! k with
      | Some p =>
          Some (None, with_list c (set_value p v (MoveToFront p (list_ c))))
      | None =>
          evict fuel ctx (push c {| key := k; value := v |})
      end
  end.

Definition Delete (ctx : Context) (k : string) (c : t) : option error * t :=
  let c1 :=
    match items c !! k with
    | Some p =>
        {| capacity := capacity c; list_ := Remove p (list_ c);
           items := delete k (items c);
           storage := storage c; next := next c |}
    | None => c
    end in
  let '(err, s) := Storage_Delete ctx k (storage c1) in
  (err, with_storage c1 s).

End WithStorage.

Arguments t S : clear implicits.

End LRUCache.

(** ** [MockStorage], the test double of the cache tests *)

#[export] Instance byte_eq_dec : EqDecision Byte.byte := Byte.byte_eq_dec.
#[export] Instance Context_eq_dec : EqDecision Context.
Proof. solve_decision. Defined.

Module mock.

(** The arguments and return values the storage methods pass through
    [mock.Mock]. *)
Inductive Arg := ArgContext (c : Context) | ArgString (s : string) | ArgBytes (b : bytes).

Inductive Ret := RetNil | RetError (e : error) | RetBytes (b : bytes) | RetInt (z : Z).

#[export] Instance Arg_eq_dec : EqDecision Arg.
Proof. solve_decision. Defined.

(** An expectation [On(Method, Arguments...).Return(ReturnArguments...)]. *)
Record Call := {
  Method : string;
  Arguments : list Arg;
  ReturnArguments : list Ret
}.

Record Mock := {
  ExpectedCalls : list Call;
  Calls : list (string * list Arg)
}.

Definition New : Mock := {| ExpectedCalls := []; Calls := [] |}.

Definition On (method : string) (args : list Arg) (rets : list Ret) (m : Mock) : Mock :=
  {| ExpectedCalls := ExpectedCalls m ++
       [{| Method := method; Arguments := args; ReturnArguments := rets |}];
     Calls := Calls m |}.

Definition matches (method : string) (args : list Arg) (c : Call) : bool :=
  bool_decide (Method c = method) && bool_decide (Arguments c = args).

(** [m.Called(args...)] from inside [method]: the first expectation that
    matches gives the return values, and the call is recorded.  (testify
    fails the test on a call nobody expected; the model records it and
    returns no values, which the accessors below read as nil and 0.) *)
Definition Called (method : string) (args : list Arg) (m : Mock) : list Ret * Mock :=
  let rets :=
    match find (matches method args) (ExpectedCalls m) with
    | Some c => ReturnArguments c
    | None => []
    end in
  (rets, {| ExpectedCalls := ExpectedCalls m;
            Calls := Calls m ++ [(method, args)] |}).

(** [args.Error(i)], [args.Int(i)] and [args.Get(i)] as a byte slice. *)
Definition Error_ (rets : list Ret) (i : nat) : option error :=
  match rets !! i with Some (RetError e) => Some e | _ => None end.

Definition Int (rets : list Ret) (i : nat) : Z :=
  match rets !! i with Some (RetInt z) => z | _ => 0 end.

Definition GetBytes (rets : list Ret) (i : nat) : option bytes :=
  match rets !! i with Some (RetBytes b) => Some b | _ => None end.

(** [AssertCalled]. *)
Definition was_called (method : string) (args : list Arg) (m : Mock) : bool :=
  bool_decide ((method, args) ∈ Calls m).

End mock.

Module MockStorage.
Import mock.

Abbreviation t := Mock.

(** With an error scripted the error is what the caller sees; a script
    with neither bytes nor error is read as the empty reader. *)
Definition Get (ctx : Context) (key : string) (m : t) : (ReadCloser + error) * t :=
  let '(args, m) := Called "Get" [ArgContext ctx; ArgString key] m in
  match Error_ args 1 with
  | Some err => (inr err, m)
  | None =>
      match GetBytes args 0 with
      | Some b => (inl (NopCloser b), m)
      | None => (inl (NopCloser []), m)
      end
  end.

Definition Set_ (ctx : Context) (key : string) (d : bytes) (m : t) : option error * t :=
  let '(args, m) := Called "Set" [ArgContext ctx; ArgString key; ArgBytes d] m in
  (Error_ args 0, m).

Definition Delete (ctx : Context) (key : string) (m : t) : option error * t :=
  let '(args, m) := Called "Delete" [ArgContext ctx; ArgString key] m in
  (Error_ args 0, m).

Definition Size (m : t) : Z * t :=
  let '(args, m) := Called "Size" [] m in
  (Int args 0, m).

End MockStorage.

#[export] Instance MockStorage_Storage : Storage MockStorage.t := {
  Storage_Get := MockStorage.Get;
  Storage_Set := MockStorage.Set_;
  Storage_Delete := MockStorage.Delete;
  Storage_Size := MockStorage.Size
}.

(** ** The interface as declared *)

(** The four methods of [Storage] and the parameter types of each, as the
    interface declares them. *)
Inductive StorageMethod := MGet | MSet | MDelete | MSize.

Inductive GoType := TContext | TString | TBytes.

Definition params (m : StorageMethod) : list GoType :=
  match m with
  | MGet => [TContext; TString]
  | MSet => [TContext; TString; TBytes]
  | MDelete => [TContext; TString]
  | MSize => []
  end.

(** A call of a method by a caller whose context is [ctx]: the context goes
    to the methods that take one.  The result is the error returned, if the
    method returns one, and the store after the call. *)
Definition call {S} `{Storage S} (m : StorageMethod) (ctx : Context)
    (k : string) (d : bytes) (s : S) : option error * S :=
  match m with
  | MGet =>
      match Storage_Get ctx k s with
      | (inr err, s') => (Some err, s')
      | (inl _, s') => (None, s')
      end
  | MSet => Storage_Set ctx k d s
  | MDelete => Storage_Delete ctx k s
  | MSize => (None, snd (Storage_Size s))
  end.

(** ** The sanitizer, in the words of its description *)

(** Colons, slashes and backslashes become underscores. *)
Definition underscore_separator (c : ascii) : ascii :=
  if Ascii.eqb c ":" then "_"
  else if Ascii.eqb c "/" then "_"
  else if Ascii.eqb c "\" then "_"
  else c.

Fixpoint map_string (f : ascii -> ascii) (s : string) : string :=
  match s with
  | EmptyString => EmptyString
  | String c s' => String (f c) (map_string f s')
  end.

(** Each ".." becomes "__", scanning from the left. *)
Fixpoint replace_dotdot (s : string) : string :=
  match s with
  | EmptyString => EmptyString
  | String c s' =>
      match s' with
      | String c' s'' =>
          if Ascii.eqb c "." && Ascii.eqb c' "."
          then String "_" (String "_" (replace_dotdot s''))
          else String c (replace_dotdot s')
      | EmptyString => s
      end
  end.

Fixpoint strip_underscores (s : string) : string :=
  match s with
  | EmptyString => EmptyString
  | String c s' => if Ascii.eqb c "_" then strip_underscores s' else s
  end.

Definition sanitize_described (k : string) : string :=
  if decide (k = "") then "empty"
  else strip_underscores (replace_dotdot (map_string underscore_separator k)).

(** ** The file store on its tree *)

Module FileStore.

(** The path a key is stored at. *)
Definition path_of (s : FileStorage.t) (k : string) : path :=
  filepath.Join (FileStorage.baseDir s) (sanitizeKey k).

(** The path names something in the tree. *)
Definition present (p : path) (fs : os.FileSys) : bool :=
  os.is_file p fs || os.is_dir p fs.

(** The base directory is there: it and the directories above it are
    directories, none of them a regular file.  [NewFileStorage] makes the
    base directory before it returns a store. *)
Definition mounted (st : FileStorage.state) : Prop :=
  forall n, let q := take n (FileStorage.baseDir (fst st)) in
    os.is_dir q (snd st) = true /\ os.is_file q (snd st) = false.

End FileStore.

(** ** Runs of the cache *)

Module Run.
Import container_list LRUCache.

Section WithStorage.
Context {S : Type} `{Storage S}.

(** The keys of the recency index, most recently used first. *)
Definition keys_of (c : LRUCache.t S) : list string :=
  (fun e => key (Value e)) <$> list_ c.

(** The index as pairs of key and element address. *)
Definition index_of (l : list Element) : list (string * nat) :=
  (fun e => (key (Value e), ptr e)) <$> l.

(** The representation invariant: [items] maps exactly the keys of the
    list elements, each to the address of its element; addresses and keys
    are not repeated; [next] is above every address in use. *)
Definition wf (c : LRUCache.t S) : Prop :=
  NoDup (ptr <$> list_ c) /\
  NoDup (keys_of c) /\
  (forall k p, items c !! k = Some p <-> (k, p) ∈ index_of (list_ c)) /\
  (forall e, e ∈ list_ c -> (ptr e < next c)%nat).

(** The public operations. *)
Inductive op :=
| OpGet (ctx : Context) (k : string)
| OpSet (ctx : Context) (k : string) (v : bytes)
| OpDelete (ctx : Context) (k : string).

(** [step c o c']: operation [o], started in [c], completes and leaves
    the cache in [c']. *)
Inductive step : LRUCache.t S -> op -> LRUCache.t S -> Prop :=
| step_Get ctx k c r c' :
    Get ctx k c = (r, c') -> step c (OpGet ctx k) c'
| step_Set fuel ctx k v c r c' :
    Set_ fuel ctx k v c = Some (r, c') -> step c (OpSet ctx k v) c'
| step_Delete ctx k c r c' :
    Delete ctx k c = (r, c') -> step c (OpDelete ctx k) c'.

(** The states a cache made by [NewLRUCache cap s0] goes through. *)
Inductive reachable (cap : Z) (s0 : S) : LRUCache.t S -> Prop :=
| reach_new : reachable cap s0 (NewLRUCache cap s0)
| reach_step c o c' :
    reachable cap s0 c -> step c o c' -> reachable cap s0 c'.

(** A [Set] call. *)
Record SetCall := { sc_ctx : Context; sc_key : string; sc_value : bytes }.

(** [run_sets calls c c']: the calls, made in order from [c], all return
    nil and leave the cache in [c']. *)
Inductive run_sets : list SetCall -> LRUCache.t S -> LRUCache.t S -> Prop :=
| run_nil c : run_sets [] c c
| run_cons fuel call calls c c1 c2 :
    Set_ fuel (sc_ctx call) (sc_key call) (sc_value call) c = Some (None, c1) ->
    run_sets calls c1 c2 ->
    run_sets (call :: calls) c c2.

(** The iterations of the eviction loop: [evicts ctx c c'] when the loop,
    entered in [c], comes to the loop head in [c'] after some iterations
    that all went through. *)
Inductive evicts (ctx : Context) : LRUCache.t S -> LRUCache.t S -> Prop :=
| evicts_refl c : evicts ctx c c
| evicts_step c c1 c2 :
    Len (list_ c) > capacity c ->
    removeOldest ctx c = (None, c1) ->
    evicts ctx c1 c2 ->
    evicts ctx c c2.

(** The cache after [removeOldest] has taken [e] off the back, with the
    store left in [s]. *)
Definition evicted (c : LRUCache.t S) (e : Element) (s : S) : LRUCache.t S :=
  {| capacity := capacity c; list_ := Remove (ptr e) (list_ c);
     items := delete (key (Value e)) (items c); storage := s; next := next c |}.


(** What an operation leaves behind: the capacity as it was, the invariant,
    and the index within the capacity (within 0, for a negative one). *)
Definition keeps (c c' : LRUCache.t S) : Prop :=
  capacity c' = capacity c /\
  (wf c -> wf c') /\
  (Len (list_ c) <= Z.max 0 (capacity c) ->
   Len (list_ c') <= Z.max 0 (capacity c')).

End WithStorage.
End Run.


(** Does the byte occur in the string? *)
Fixpoint has_char (a : ascii) (s : string) : bool :=
  match s with
  | EmptyString => false
  | String c s' => Ascii.eqb c a || has_char a s'
  end.


(** ** The caches and stores of the examples *)

(** The three [Set] calls of the eviction test. *)
Definition call1 : Run.SetCall :=
  {| Run.sc_ctx := Background; Run.sc_key := "key1"; Run.sc_value := bytes_of "value1" |}.
Definition call2 : Run.SetCall :=
  {| Run.sc_ctx := Background; Run.sc_key := "key2"; Run.sc_value := bytes_of "value2" |}.
Definition call3 : Run.SetCall :=
  {| Run.sc_ctx := Background; Run.sc_key := "key3"; Run.sc_value := bytes_of "value3" |}.

(** An empty store directory [/srv/image_cache]. *)
Definition empty_dir : FileStorage.state :=
  ({| FileStorage.baseDir := ["srv"; "image_cache"]; FileStorage.size := 0 |},
   {| os.files := ∅;
      os.dirs := {[ []; ["srv"]; ["srv"; "image_cache"] ]} |}).

(** A cache holding "key1", and a [Set] under a cancelled context: the memory
    store refuses the write. *)
Definition one_key : LRUCache.t MemoryStorage.t :=
  {| LRUCache.capacity := 2;
     LRUCache.list_ :=
       [{| ptr := 0; Value := {| key := "key1"; value := bytes_of "value1" |} |}];
     LRUCache.items := {[ "key1" := 0%nat ]};
     LRUCache.storage := {| MemoryStorage.data := {[ "key1" := bytes_of "value1" ]} |};
     LRUCache.next := 1 |}.

(** The store of the error-handling test: the writes of "key1" and "key2" go
    through, the delete of "key1" fails. *)
Definition failing_delete : mock.Mock :=
  mock.On "Size" [] [mock.RetInt 0]
  (mock.On "Delete" [mock.ArgContext Background; mock.ArgString "key1"]
           [mock.RetError (errorString "storage error")]
  (mock.On "Set" [mock.ArgContext Background; mock.ArgString "key2";
                  mock.ArgBytes (bytes_of "value2")] [mock.RetNil]
  (mock.On "Set" [mock.ArgContext Background; mock.ArgString "key1";
                  mock.ArgBytes (bytes_of "value1")] [mock.RetNil] mock.New))).

(** The stores of the eviction test, the recency test and the edge-case test
    of the cache. *)
Definition eviction_store : mock.Mock :=
  mock.On "Size" [] [mock.RetInt 0]
  (mock.On "Delete" [mock.ArgContext Background; mock.ArgString "key1"] [mock.RetNil]
  (mock.On "Set" [mock.ArgContext Background; mock.ArgString "key3";
                  mock.ArgBytes (bytes_of "value3")] [mock.RetNil]
  (mock.On "Set" [mock.ArgContext Background; mock.ArgString "key2";
                  mock.ArgBytes (bytes_of "value2")] [mock.RetNil]
  (mock.On "Set" [mock.ArgContext Background; mock.ArgString "key1";
                  mock.ArgBytes (bytes_of "value1")] [mock.RetNil] mock.New)))).

Definition recency_store : mock.Mock :=
  mock.On "Size" [] [mock.RetInt 0]
  (mock.On "Get" [mock.ArgContext Background; mock.ArgString "key1"]
           [mock.RetBytes (bytes_of "value1"); mock.RetNil]
  (mock.On "Delete" [mock.ArgContext Background; mock.ArgString "key2"] [mock.RetNil]
  (mock.On "Set" [mock.ArgContext Background; mock.ArgString "key3";
                  mock.ArgBytes (bytes_of "value3")] [mock.RetNil]
  (mock.On "Set" [mock.ArgContext Background; mock.ArgString "key2";
                  mock.ArgBytes (bytes_of "value2")] [mock.RetNil]
  (mock.On "Set" [mock.ArgContext Background; mock.ArgString "key1";
                  mock.ArgBytes (bytes_of "value1")] [mock.RetNil] mock.New))))).

Definition edge_store : mock.Mock :=
  mock.On "Size" [] [mock.RetInt 0]
  (mock.On "Delete" [mock.ArgContext Background; mock.ArgString "key1"] [mock.RetNil]
  (mock.On "Set" [mock.ArgContext Background; mock.ArgString "key1";
                  mock.ArgBytes (bytes_of "value1")] [mock.RetNil] mock.New)).

(** A store on which no call is expected: "key1" and "key2" are in the cache
    already.  [Get "key1"], even under a cancelled context, returns the bytes
    and records no call on the store. *)
Definition two_keys : LRUCache.t mock.Mock :=
  {| LRUCache.capacity := 2;
     LRUCache.list_ :=
       [{| ptr := 1; Value := {| key := "key2"; value := bytes_of "value2" |} |};
        {| ptr := 0; Value := {| key := "key1"; value := bytes_of "value1" |} |}];
     LRUCache.items := {[ "key1" := 0%nat; "key2" := 1%nat ]};
     LRUCache.storage := mock.New;
     LRUCache.next := 2 |}.


(** ** The index as key/value pairs *)

(** The entries of the recency index, most recently used first. *)
Definition entries_of {S} (c : LRUCache.t S) : list (string * bytes) :=
  (fun e => (key (Value e), value (Value e))) <$> LRUCache.list_ c.

(** Every entry of the index is the entry the memory store has for its
    key. *)
Definition coherent (c : LRUCache.t MemoryStorage.t) : Prop :=
  forall k v, (k, v) ∈ entries_of c ->
    MemoryStorage.data (LRUCache.storage c) !! k = Some v.

(** A memory store that has "key1". *)
Definition stored_key1 : MemoryStorage.t :=
  {| MemoryStorage.data := {[ "key1" := bytes_of "value1" ]} |}.

(** ** The file store: names and entries *)

(** Two dots side by side somewhere in a string. *)
Fixpoint has_dotdot (s : string) : bool :=
  match s with
  | EmptyString => false
  | String c s' =>
      (Ascii.eqb c "." &&
       match s' with String c' _ => Ascii.eqb c' "." | EmptyString => false end)
      || has_dotdot s'
  end.

(** A key whose sanitized name is empty or "." names the base directory
    itself: [filepath.Join] cleans the name away. *)
Definition degenerate (k : string) : Prop :=
  sanitizeKey k = "" \/ sanitizeKey k = ".".

(** The entries of a directory, as [os.ReadDir] lists them: the files and
    the directories directly in it. *)
Definition children (p : path) (fs : os.FileSys) : gset path :=
  filter (fun q => q ≠ [] ∧ filepath.Dir q = p) (dom (os.files fs) ∪ os.dirs fs).

(** No path is a regular file and a directory at once. *)
Definition tree_ok (fs : os.FileSys) : Prop :=
  forall p, os.is_file p fs = true -> os.is_dir p fs = false.

(** The count of the store is the number of entries of its base directory,
    as an [int]: the number [NewFileStorage] takes from [os.ReadDir]. *)
Definition counted (st : FileStorage.state) : Prop :=
  FileStore.mounted st /\ tree_ok st.2 /\
  FileStorage.size st.1 =
    wrap (Z.of_nat (size (children (FileStorage.baseDir st.1) st.2))).

(** Calls on the file store. *)
Inductive FileOp :=
| FGet (ctx : Context) (k : string)
| FSet (ctx : Context) (k : string) (d : bytes)
| FDelete (ctx : Context) (k : string).

Definition op_key (o : FileOp) : string :=
  match o with FGet _ k | FSet _ k _ | FDelete _ k => k end.

Definition apply_op (st : FileStorage.state) (o : FileOp) : FileStorage.state :=
  match o with
  | FGet ctx k => (FileStorage.Get ctx k st).2
  | FSet ctx k d => (FileStorage.Set_ ctx k d st).2
  | FDelete ctx k => (FileStorage.Delete ctx k st).2
  end.

(** A call that cannot remove the base directory: a [Delete] whose key names
    it is the one that can. *)
Definition keeps_base (o : FileOp) : Prop :=
  match o with FDelete _ k => ~ degenerate k | _ => True end.

Definition run_ops (ops : list FileOp) (st : FileStorage.state) : FileStorage.state :=
  foldl apply_op st ops.

(** ** Package [net/http], as far as the handlers use it *)

Module http.

Definition StatusOK : Z := 200.
Definition StatusBadRequest : Z := 400.
Definition StatusInternalServerError : Z := 500.

(** What a handler has answered: [http.Error(w, msg, code)], or the headers
    [Content-Type] and [Content-Length], the status and the body. *)
Inductive Response :=
| Error (msg : string) (code : Z)
| Written (contentType : string) (contentLength : Z) (code : Z) (body : bytes).

End http.

(** ** The server: [server/main.go] *)

Module main.


Section Handler.

(** [processor.ProcessImage]: it downloads, decodes and scales, outside of
    what is modelled here; it returns the bytes and the content type, or an
    error. *)
Variable ProcessImage : Context -> string -> Z -> Z -> (bytes * string) + error.

(** The handler of ["/fill/"], on the context and the path of the request. *)
Definition fillHandler (ctx : Context) (path : string) : http.Response :=
  let parts := strings.Split path "/" in
  if decide (length parts < 5)%nat
  then http.Error "Invalid URL format" http.StatusBadRequest
  else
    match strconv.Atoi (parts !!! 2%nat) with
    | None => http.Error "Invalid width" http.StatusBadRequest
    | Some width =>
        match strconv.Atoi (parts !!! 3%nat) with
        | None => http.Error "Invalid height" http.StatusBadRequest
        | Some height =>
            let url := strings.Join (drop 4 parts) "/" in
            if decide (url = "") then http.Error "URL is required" http.StatusBadRequest
            else
              match ProcessImage ctx url width height with
              | inr err => http.Error (Error err) http.StatusInternalServerError
              | inl (data, contentType) =>
                  http.Written contentType (Z.of_nat (length data)) http.StatusOK data
              end
        end
    end.

End Handler.

End main.

(** The number of times a byte is in a string. *)
Fixpoint count_char (c : ascii) (s : string) : nat :=
  match s with
  | EmptyString => O
  | String d s' => (if Ascii.eqb d c then 1 else 0) + count_char c s'
  end.


(** * Proofs *)

(** ** The sanitizer *)

Section Sanitize.

Lemma prefix_one (a c : ascii) (s : string) :
  String.prefix (String a "") (String c s) = Ascii.eqb c a.
Proof.
  simpl. destruct (ascii_dec a c) as [->|Hne].
  - rewrite Ascii.eqb_refl. by destruct s.
  - symmetry. apply Ascii.eqb_neq. congruence.
Qed.

(** Replacing a one-byte pattern by a one-byte string is a map over the
    bytes. *)
Lemma ReplaceAll_char (a b : ascii) (s : string) :
  strings.ReplaceAll s (String a "") (String b "") =
  map_string (fun c => if Ascii.eqb c a then b else c) s.
Proof.
  unfold strings.ReplaceAll.
  induction s as [|c s IH]; [done|].
  cbn [strings.replace_from map_string]. rewrite prefix_one.
  cbn [String.length Nat.sub]. rewrite IH.
  by destruct (Ascii.eqb c a).
Qed.

Lemma map_string_compose (f g : ascii -> ascii) (s : string) :
  map_string g (map_string f s) = map_string (fun c => g (f c)) s.
Proof. induction s as [|c s IH]; simpl; congruence. Qed.

Lemma map_string_ext (f g : ascii -> ascii) (s : string) :
  (forall c, f c = g c) -> map_string f s = map_string g s.
Proof. intros E. induction s as [|c s IH]; simpl; congruence. Qed.

Lemma prefix_dotdot (c : ascii) (s : string) :
  String.prefix ".." (String c s) =
  match s with
  | String c' _ => Ascii.eqb c "." && Ascii.eqb c' "."
  | EmptyString => false
  end.
Proof.
  change (String.prefix ".." (String c s))
    with (if ascii_dec "." c then String.prefix "." s else false).
  destruct (ascii_dec "." c) as [<-|Hc].
  - destruct s as [|c' s]; [done|]. by rewrite prefix_one.
  - assert (Ascii.eqb c "." = false) as -> by (apply Ascii.eqb_neq; congruence).
    by destruct s.
Qed.

Lemma replace_dotdot_from (s : string) :
  strings.replace_from ".." "__" 0 s = replace_dotdot s /\
  forall c, strings.replace_from ".." "__" 0 (String c s) = replace_dotdot (String c s).
Proof.
  induction s as [|c s [IH0 IH1]].
  - split; [done|]. intros c. cbn [strings.replace_from]. by rewrite prefix_dotdot.
  - split; [apply IH1|]. intros c0.
    cbn [strings.replace_from]. rewrite prefix_dotdot.
    cbn [replace_dotdot] in *.
    destruct (Ascii.eqb c0 "." && Ascii.eqb c ".").
    + cbn [String.length Nat.sub strings.replace_from]. by rewrite IH0.
    + cbn [strings.replace_from] in IH1. by rewrite IH1.
Qed.

Lemma TrimLeft_underscore (s : string) :
  strings.TrimLeft s "_" = strip_underscores s.
Proof.
  induction s as [|c s IH]; [done|].
  simpl. rewrite IH. by destruct (Ascii.eqb c "_").
Qed.

(** The code computes what the description says. *)
Lemma sanitizeKey_described (k : string) :
  sanitizeKey k = sanitize_described k.
Proof.
  unfold sanitizeKey, sanitize_described.
  destruct (decide (k = "")); [done|].
  rewrite !ReplaceAll_char, !map_string_compose.
  unfold strings.ReplaceAll.
  rewrite (proj1 (replace_dotdot_from _)), TrimLeft_underscore.
  do 2 f_equal. apply map_string_ext. intros c.
  unfold underscore_separator.
  destruct (Ascii.eqb c ":") eqn:E1; [done|].
  destruct (Ascii.eqb c "/") eqn:E2; [done|].
  by destruct (Ascii.eqb c "\").
Qed.

End Sanitize.

(** ** Facts on [container/list] *)

Section ListFacts.
Import container_list.
Implicit Types (l : list Element) (e : Element) (p : nat).

Lemma find_elem_Some p l e :
  find_elem p l = Some e -> e ∈ l /\ ptr e = p.
Proof.
  induction l as [|x l IH]; [done|]. simpl.
  destruct (decide (ptr x = p)) as [Hx|Hx].
  - intros [= <-]. split; [left | done].
  - intros Hf. destruct (IH Hf). split; [by right | done].
Qed.

Lemma find_elem_None p l :
  find_elem p l = None <-> p ∉ ptr <$> l.
Proof.
  induction l as [|x l IH].
  - split; [intros _; apply not_elem_of_nil | done].
  - cbn [find_elem]. rewrite fmap_cons, not_elem_of_cons.
    destruct (decide (ptr x = p)) as [Hx|Hx].
    + split; [done | intros [Hne _]; congruence].
    + rewrite IH. split; [intros Hin; split; [congruence | done] | by intros [_ Hin]].
Qed.

Lemma find_elem_NoDup l e :
  NoDup (ptr <$> l) -> e ∈ l -> find_elem (ptr e) l = Some e.
Proof.
  induction l as [|x l IH]; intros Hnd Hin; [by apply elem_of_nil in Hin|].
  simpl in *. apply NoDup_cons in Hnd as [Hx Hnd].
  destruct (decide (ptr x = ptr e)) as [Heq|Hne].
  - apply elem_of_cons in Hin as [->|Hin]; [done|].
    exfalso. apply Hx. rewrite Heq. by apply list_elem_of_fmap_2.
  - apply elem_of_cons in Hin as [->|Hin]; [done | by apply IH].
Qed.

Lemma Remove_notin p l : p ∉ ptr <$> l -> Remove p l = l.
Proof.
  induction l as [|x l IH]; [done|]. simpl.
  rewrite not_elem_of_cons. intros [Hne Hin].
  destruct (decide (ptr x = p)); [congruence|]. by rewrite IH.
Qed.

Lemma Remove_perm p l e :
  find_elem p l = Some e -> l ≡ₚ e :: Remove p l.
Proof.
  induction l as [|x l IH]; [done|]. simpl.
  destruct (decide (ptr x = p)).
  - by intros [= <-].
  - intros Hf. rewrite (IH Hf) at 1. apply Permutation_swap.
Qed.

Lemma Remove_length_le p l : (length (Remove p l) <= length l)%nat.
Proof.
  induction l as [|x l IH]; [done|]. simpl.
  destruct (decide (ptr x = p)); simpl; lia.
Qed.

Lemma MoveToFront_perm p l : MoveToFront p l ≡ₚ l.
Proof.
  unfold MoveToFront. destruct (find_elem p l) eqn:Hf; [|done].
  symmetry. by apply Remove_perm.
Qed.

Lemma MoveToFront_length p l : length (MoveToFront p l) = length l.
Proof. by rewrite MoveToFront_perm. Qed.

Lemma set_value_length p v l : length (set_value p v l) = length l.
Proof.
  induction l as [|x l IH]; [done|]. simpl.
  destruct (decide (ptr x = p)); simpl; congruence.
Qed.

Lemma set_value_index p v l :
  (fun e => (key (Value e), ptr e)) <$> set_value p v l =
  (fun e => (key (Value e), ptr e)) <$> l.
Proof.
  induction l as [|x l IH]; [done|]. cbn [set_value].
  destruct (decide (ptr x = p)) as [<-|]; rewrite !fmap_cons; [done|].
  by rewrite IH.
Qed.

(** Removing the element at the back is [removelast]. *)
Lemma Remove_last l e :
  NoDup (ptr <$> l) -> last l = Some e -> Remove (ptr e) l = removelast l.
Proof.
  induction l as [|x l IH]; [done|]. intros Hnd Hlast.
  simpl in Hnd. apply NoDup_cons in Hnd as [Hx Hnd].
  destruct l as [|y l].
  - simpl in *. injection Hlast as ->. by rewrite decide_True.
  - change (last (x :: y :: l)) with (last (y :: l)) in Hlast.
    cbn [Remove]. destruct (decide (ptr x = ptr e)) as [Heq|Hne].
    + exfalso. apply Hx. rewrite Heq. apply list_elem_of_fmap_2.
      by apply last_Some_elem_of.
    + change (removelast (x :: y :: l)) with (x :: removelast (y :: l)).
      f_equal. by apply IH.
Qed.

End ListFacts.

(** ** The representation invariant of the cache *)

Section Invariant.
Import container_list LRUCache Run.
Context {S : Type} `{Storage S}.
Implicit Types (c : LRUCache.t S) (l : list Element) (e : Element) (s : S).

Lemma index_keys l : (index_of l).*1 = (fun e => key (Value e)) <$> l.
Proof. unfold index_of. by rewrite <- list_fmap_compose. Qed.

Lemma index_ptrs l : (index_of l).*2 = ptr <$> l.
Proof. unfold index_of. by rewrite <- list_fmap_compose. Qed.

Lemma elem_of_index k p l :
  (k, p) ∈ index_of l <-> exists e, e ∈ l /\ key (Value e) = k /\ ptr e = p.
Proof.
  unfold index_of. rewrite list_elem_of_fmap. split.
  - intros (e & [= -> ->] & Hin). eauto.
  - intros (e & Hin & <- & <-). eauto.
Qed.

(** [wf] through the index alone. *)
Lemma wf_alt c :
  wf c <->
  NoDup (index_of (list_ c)).*2 /\ NoDup (index_of (list_ c)).*1 /\
  (forall k p, items c !! k = Some p <-> (k, p) ∈ index_of (list_ c)) /\
  (forall k p, (k, p) ∈ index_of (list_ c) -> (p < next c)%nat).
Proof.
  unfold wf, keys_of. rewrite index_keys, index_ptrs.
  split; intros (H1 & H2 & H3 & H4); repeat split; try done; try apply H3.
  - intros k p (e & Hin & <- & <-)%elem_of_index. by apply H4.
  - intros e Hin. apply (H4 (key (Value e))), elem_of_index. eauto.
Qed.

Lemma wf_new (cap : Z) (s : S) : wf (NewLRUCache cap s).
Proof.
  unfold wf, keys_of. cbn [NewLRUCache list_ items next].
  split_and!; try apply NoDup_nil_2.
  - intros k p. rewrite lookup_empty. split; [done | by intros ?%elem_of_nil].
  - by intros e ?%elem_of_nil.
Qed.

(** The invariant does not look at the capacity or the store, and only at
    the index up to the order of the list. *)
Lemma wf_perm c cap l s :
  wf c -> index_of l ≡ₚ index_of (list_ c) ->
  wf {| capacity := cap; list_ := l; items := items c; storage := s; next := next c |}.
Proof.
  rewrite !wf_alt. cbn [list_ items next]. intros (H1 & H2 & H3 & H4) Hp.
  split_and!.
  - by rewrite Hp.
  - by rewrite Hp.
  - intros k p. rewrite Hp. apply H3.
  - intros k p. rewrite Hp. apply H4.
Qed.

Lemma wf_with_storage c s : wf c -> wf (with_storage c s).
Proof. intros Hwf. by apply wf_perm. Qed.

Lemma wf_remove c cap s p e :
  wf c -> find_elem p (list_ c) = Some e ->
  wf {| capacity := cap; list_ := Remove p (list_ c);
        items := delete (key (Value e)) (items c); storage := s; next := next c |}.
Proof.
  rewrite !wf_alt. cbn [list_ items next]. intros (H1 & H2 & H3 & H4) Hf.
  assert (index_of (list_ c) ≡ₚ
          (key (Value e), ptr e) :: index_of (Remove p (list_ c))) as Hp.
  { change ((key (Value e), ptr e) :: index_of (Remove p (list_ c)))
      with (index_of (e :: Remove p (list_ c))).
    apply fmap_Permutation. by apply Remove_perm. }
  rewrite Hp in H1, H2. cbn [fmap list_fmap fst snd] in H1, H2.
  apply NoDup_cons in H1 as [Hp1 H1]. apply NoDup_cons in H2 as [Hk2 H2].
  split_and!; [done | done | intros k q; split |].
  - intros Hl. apply lookup_delete_Some in Hl as [Hne Hl].
    apply H3 in Hl. rewrite Hp in Hl.
    apply elem_of_cons in Hl as [[= ? ?]|Hl]; [congruence | done].
  - intros Hin. apply lookup_delete_Some. split.
    + intros <-. apply Hk2. by apply (list_elem_of_fmap_2 fst) in Hin.
    + apply H3. rewrite Hp. by right.
  - intros k q Hin. apply (H4 k). rewrite Hp. by right.
Qed.

Lemma wf_push c k v :
  wf c -> items c !! k = None -> wf (push c {| key := k; value := v |}).
Proof.
  rewrite !wf_alt. unfold push, PushFront. cbn [list_ items next key ptr].
  intros (H1 & H2 & H3 & H4) Hk.
  change (index_of ({| ptr := next c; Value := {| key := k; value := v |} |} :: list_ c))
    with ((k, next c) :: index_of (list_ c)).
  cbn [fmap list_fmap fst snd].
  split_and!; [| | intros k' q; split |].
  - apply NoDup_cons. split; [|done].
    intros ([k' p] & Heq & Hin)%list_elem_of_fmap. apply H4 in Hin. simpl in Heq. lia.
  - apply NoDup_cons. split; [|done].
    intros ([k' p] & Heq & Hin)%list_elem_of_fmap. apply H3 in Hin. simpl in Heq. congruence.
  - intros Hl. apply lookup_insert_Some in Hl as [[<- <-]|[Hne Hl]]; [left|right].
    by apply H3.
  - intros Hin. apply lookup_insert_Some.
    apply elem_of_cons in Hin as [[= -> ->]|Hin]; [by left|right].
    apply H3 in Hin. split; [congruence | done].
  - intros k' p Hin. apply elem_of_cons in Hin as [[= -> ->]|Hin]; [lia|].
    apply H4 in Hin. lia.
Qed.

(** *** [removeOldest] *)

Lemma removeOldest_empty ctx c :
  list_ c = [] -> removeOldest ctx c = (None, c).
Proof. unfold removeOldest, Back. by intros ->. Qed.

Lemma removeOldest_back ctx c e :
  last (list_ c) = Some e ->
  removeOldest ctx c =
  (Errorf_w "failed to delete from storage: " <$>
     (Storage_Delete ctx (key (Value e)) (storage c)).1,
   evicted c e (Storage_Delete ctx (key (Value e)) (storage c)).2).
Proof.
  unfold removeOldest, Back. intros ->.
  destruct (Storage_Delete ctx (key (Value e)) (storage c)) as [[err|] s]; done.
Qed.

Lemma last_find l e :
  last l = Some e -> exists e', find_elem (ptr e) l = Some e'.
Proof.
  intros Hl. destruct (find_elem (ptr e) l) eqn:Hf; [eauto|].
  apply find_elem_None in Hf. exfalso. apply Hf.
  by apply list_elem_of_fmap_2, last_Some_elem_of.
Qed.

Lemma Remove_length_back l e :
  last l = Some e -> Len (Remove (ptr e) l) = Len l - 1.
Proof.
  intros [e' Hf]%last_find. apply Remove_perm in Hf.
  unfold Len. rewrite Hf at 2. simpl. lia.
Qed.

Lemma removeOldest_capacity ctx c :
  capacity (removeOldest ctx c).2 = capacity c.
Proof.
  destruct (last (list_ c)) as [e|] eqn:Hl.
  - by rewrite (removeOldest_back _ _ _ Hl).
  - apply last_None in Hl. by rewrite removeOldest_empty.
Qed.

Lemma removeOldest_Len ctx c :
  list_ c <> [] -> Len (list_ (removeOldest ctx c).2) = Len (list_ c) - 1.
Proof.
  intros Hne. destruct (last (list_ c)) as [e|] eqn:Hl.
  - rewrite (removeOldest_back _ _ _ Hl). by apply Remove_length_back.
  - by apply last_None in Hl.
Qed.

Lemma wf_removeOldest ctx c : wf c -> wf (removeOldest ctx c).2.
Proof.
  intros Hwf. destruct (last (list_ c)) as [e|] eqn:Hl.
  - rewrite (removeOldest_back _ _ _ Hl). apply wf_remove; [done|].
    apply find_elem_NoDup; [apply Hwf | by apply last_Some_elem_of].
  - apply last_None in Hl. by rewrite removeOldest_empty.
Qed.

(** *** The eviction loop *)

(** Within the capacity the loop is not entered. *)
Lemma evict_within fuel ctx c :
  ~ Len (list_ c) > capacity c -> evict fuel ctx c = Some (None, c).
Proof. intros Hle. destruct fuel; cbn [evict]; by rewrite decide_False. Qed.

Lemma evict_capacity fuel ctx c r c' :
  evict fuel ctx c = Some (r, c') -> capacity c' = capacity c.
Proof.
  revert c. induction fuel as [|fuel IH]; intros c; cbn [evict];
    destruct (decide (Len (list_ c) > capacity c)); try done;
    try (by intros [= _ <-]).
  pose proof (removeOldest_capacity ctx c) as Hcap.
  destruct (removeOldest ctx c) as [[err|] c1]; simpl in Hcap.
  - by intros [= _ <-].
  - intros Hev. apply IH in Hev. congruence.
Qed.

Lemma wf_evict fuel ctx c r c' :
  wf c -> evict fuel ctx c = Some (r, c') -> wf c'.
Proof.
  revert c. induction fuel as [|fuel IH]; intros c Hwf; cbn [evict];
    destruct (decide (Len (list_ c) > capacity c)); try done;
    try (by intros [= _ <-]).
  pose proof (wf_removeOldest ctx c Hwf) as Hwf1.
  destruct (removeOldest ctx c) as [[err|] c1]; simpl in Hwf1.
  - by intros [= _ <-].
  - by apply IH.
Qed.

(** Entered at most one over the capacity (over 0, for a negative one), the
    loop leaves the index within it, also when it stops on an error. *)
Lemma evict_bound fuel ctx c r c' :
  Len (list_ c) <= Z.max 0 (capacity c) + 1 ->
  evict fuel ctx c = Some (r, c') -> Len (list_ c') <= Z.max 0 (capacity c').
Proof.
  revert c. induction fuel as [|fuel IH]; intros c Hlen; cbn [evict];
    destruct (decide (Len (list_ c) > capacity c)) as [Hgt|Hle]; try done;
    try (intros [= _ <-]; lia).
  pose proof (removeOldest_capacity ctx c) as Hc1.
  destruct (decide (list_ c = [])) as [Hnil|Hne].
  - rewrite (removeOldest_empty _ _ Hnil). apply IH. lia.
  - pose proof (removeOldest_Len ctx c Hne) as Hl1.
    destruct (removeOldest ctx c) as [[err|] c1]; simpl in Hl1, Hc1.
    + intros [= _ <-]. lia.
    + intros Hev. apply IH in Hev; [done|]. lia.
Qed.

(** With a capacity that is not negative the loop ends: one unit of fuel
    for each element is enough. *)
Lemma evict_terminates ctx c fuel :
  0 <= capacity c -> (length (list_ c) <= fuel)%nat ->
  exists r c', evict fuel ctx c = Some (r, c').
Proof.
  revert c. induction fuel as [|fuel IH]; intros c Hcap Hlen; cbn [evict];
    destruct (decide (Len (list_ c) > capacity c)) as [Hgt|Hle]; eauto.
  - unfold Len in Hgt. lia.
  - assert (list_ c <> []) as Hne.
    { intros Hnil. rewrite Hnil in Hgt. unfold Len in Hgt. simpl in Hgt. lia. }
    pose proof (removeOldest_Len ctx c Hne) as Hl1.
    pose proof (removeOldest_capacity ctx c) as Hc1.
    destruct (removeOldest ctx c) as [[err|] c1]; simpl in Hl1, Hc1; eauto.
    apply IH; [lia|]. unfold Len in Hl1. lia.
Qed.

(** More fuel does not change a result. *)
Lemma evict_fuel_mono fuel fuel' ctx c x :
  (fuel <= fuel')%nat -> evict fuel ctx c = Some x -> evict fuel' ctx c = Some x.
Proof.
  revert fuel' c. induction fuel as [|fuel IH]; intros fuel' c Hle; cbn [evict].
  - destruct fuel'; cbn [evict];
      destruct (decide (Len (list_ c) > capacity c)); done.
  - destruct fuel' as [|fuel']; [lia|]. cbn [evict].
    destruct (decide (Len (list_ c) > capacity c)); [|done].
    destruct (removeOldest ctx c) as [[err|] c1]; [done|].
    apply IH. lia.
Qed.

(** With a negative capacity the loop never returns nil: it goes on for
    ever once the index is empty, unless a store delete fails first. *)
Lemma evict_negative_capacity fuel ctx c c' :
  capacity c < 0 -> evict fuel ctx c <> Some (None, c').
Proof.
  revert c. induction fuel as [|fuel IH]; intros c Hneg; cbn [evict];
    (destruct (decide (Len (list_ c) > capacity c)) as [Hgt|Hle];
     [|unfold Len in Hle; lia]); [done|].
  pose proof (removeOldest_capacity ctx c) as Hc1.
  destruct (removeOldest ctx c) as [[err|] c1]; simpl in Hc1; [done|].
  apply IH. lia.
Qed.

(** *** The public operations *)

Lemma index_MoveToFront p l : index_of (MoveToFront p l) ≡ₚ index_of l.
Proof. apply fmap_Permutation, MoveToFront_perm. Qed.

Lemma push_Len c item : Len (list_ (push c item)) = Len (list_ c) + 1.
Proof. unfold push, PushFront, Len. cbn [list_ length]. lia. Qed.

Lemma keeps_with_storage c s : keeps c (with_storage c s).
Proof. split_and!; [done | apply wf_with_storage | done]. Qed.

Lemma keeps_with_list c l :
  index_of l ≡ₚ index_of (list_ c) -> keeps c (with_list c l).
Proof.
  intros Hp. split_and!; [done | by intros; apply wf_perm |].
  cbn [with_list list_ capacity]. unfold Len.
  apply Permutation_length in Hp. unfold index_of in Hp.
  rewrite !length_fmap in Hp. lia.
Qed.

Lemma Get_keeps ctx k c r c' : Get ctx k c = (r, c') -> keeps c c'.
Proof.
  unfold Get. destruct (items c !! k) as [p|] eqn:Hk.
  - intros Hg. assert (c' = with_list c (MoveToFront p (list_ c))) as ->.
    { by destruct (find_elem p (MoveToFront p (list_ c))); injection Hg as _ <-. }
    apply keeps_with_list, index_MoveToFront.
  - destruct (Storage_Get ctx k (storage c)) as [[data|err] s].
    2: { intros [= _ <-]. apply keeps_with_storage. }
    destruct (ReadAll data) as [v [err|]].
    { intros [= _ <-]. apply keeps_with_storage. }
    set (c1 := push (with_storage c s) {| key := k; value := v |}).
    assert (capacity c1 = capacity c /\ (wf c -> wf c1)) as (Hc1 & Hwf1).
    { split; [done|].
      intros Hwf. by apply wf_push; [apply wf_with_storage|]. }
    pose proof (push_Len (with_storage c s) {| key := k; value := v |}) as Hlen.
    fold c1 in Hlen. cbn [with_storage list_] in Hlen.
    destruct (decide (Len (list_ c1) > capacity c1)) as [Hgt|Hle].
    + pose proof (removeOldest_capacity ctx c1) as Hc2.
      pose proof (wf_removeOldest ctx c1) as Hwf2.
      assert (list_ c1 <> []) as Hne by done.
      pose proof (removeOldest_Len ctx c1 Hne) as Hl2.
      intros Hg. assert (c' = (removeOldest ctx c1).2) as ->.
      { by destruct (removeOldest ctx c1) as [[?|] ?]; injection Hg as _ <-. }
      split_and!; [congruence | auto | lia].
    + intros [= _ <-]. split_and!; [done | done | lia].
Qed.

Lemma Set_keeps fuel ctx k v c r c' :
  Set_ fuel ctx k v c = Some (r, c') -> keeps c c'.
Proof.
  unfold Set_. destruct (Storage_Set ctx k v (storage c)) as [[err|] s].
  { intros [= _ <-]. apply keeps_with_storage. }
  destruct (items (with_storage c s) !! k) as [p|] eqn:Hk.
  - intros [= _ <-]. destruct (keeps_with_storage c s) as (Hc & Hwf & Hb).
    destruct (keeps_with_list (with_storage c s)
                (set_value p v (MoveToFront p (list_ (with_storage c s)))))
      as (Hc' & Hwf' & Hb').
    { unfold index_of at 1. rewrite set_value_index. apply index_MoveToFront. }
    split_and!; [done | auto | intros; apply Hb'; auto].
  - intros Hev. set (c1 := push (with_storage c s) {| key := k; value := v |}) in *.
    pose proof (push_Len (with_storage c s) {| key := k; value := v |}) as Hlen.
    fold c1 in Hlen. cbn [with_storage list_] in Hlen.
    split_and!.
    + by rewrite (evict_capacity _ _ _ _ _ Hev).
    + intros Hwf. eapply wf_evict; [|done].
      by apply wf_push; [apply wf_with_storage|].
    + intros Hle. eapply evict_bound; [|done].
      change (capacity c1) with (capacity c). lia.
Qed.

Lemma Delete_keeps ctx k c r c' : Delete ctx k c = (r, c') -> keeps c c'.
Proof.
  unfold Delete. destruct (items c !! k) as [p|] eqn:Hk.
  - set (c1 := {| capacity := capacity c; list_ := Remove p (list_ c);
                  items := delete k (items c); storage := storage c;
                  next := next c |}).
    destruct (Storage_Delete ctx k (storage c1)) as [err s]. intros [= _ <-].
    split_and!; [done | |].
    + intros Hwf. apply wf_with_storage.
      pose proof Hwf as (Hnd & _ & Hit & _).
      apply Hit, elem_of_index in Hk as (e & Hin & <- & <-).
      apply wf_remove; [done | by apply find_elem_NoDup].
    + cbn [with_storage list_ capacity c1]. intros Hle.
      pose proof (Remove_length_le p (list_ c)). unfold Len in *. lia.
  - destruct (Storage_Delete ctx k (storage c)) as [err s]. intros [= _ <-].
    apply keeps_with_storage.
Qed.

Lemma step_keeps c o c' : step c o c' -> keeps c c'.
Proof.
  destruct 1; eauto using Get_keeps, Set_keeps, Delete_keeps.
Qed.

(** Every state a cache goes through is well formed. *)
Lemma reachable_wf cap s0 c : reachable cap s0 c -> wf c.
Proof.
  induction 1 as [|c o c' _ IH Hstep]; [apply wf_new|].
  by apply (step_keeps _ _ _ Hstep).
Qed.

Lemma reachable_capacity cap s0 c : reachable cap s0 c -> capacity c = cap.
Proof.
  induction 1 as [|c o c' _ IH Hstep]; [done|].
  destruct (step_keeps _ _ _ Hstep) as (Hc & _). congruence.
Qed.

(** In every state a cache goes through, the index is within the capacity,
    or within 0 when the capacity is negative. *)
Lemma reachable_bound cap s0 c :
  reachable cap s0 c -> capacity c = cap /\ Len (list_ c) <= Z.max 0 cap.
Proof.
  induction 1 as [|c o c' _ IH Hstep]; [split; [done | unfold Len; simpl; lia]|].
  destruct IH as [Hc Hlen]. destruct (step_keeps _ _ _ Hstep) as (Hc' & _ & Hb).
  split; [congruence|]. rewrite <- Hc, <- Hc'. apply Hb. by rewrite Hc.
Qed.

(** With a capacity that is not negative every operation completes. *)
Lemma step_total c o : 0 <= capacity c -> exists c', step c o c'.
Proof.
  intros Hcap. destruct o as [ctx k|ctx k v|ctx k].
  - destruct (Get ctx k c) as [r c'] eqn:Hg. eauto using step.
  - assert (exists r c', Set_ (Datatypes.S (length (list_ c))) ctx k v c = Some (r, c'))
      as (r & c' & Hs); [|eauto using step].
    unfold Set_. destruct (Storage_Set ctx k v (storage c)) as [[err|] s]; [eauto|].
    destruct (items (with_storage c s) !! k); [eauto|].
    apply evict_terminates; [done|]. cbn. lia.
  - destruct (Delete ctx k c) as [r c'] eqn:Hd. eauto using step.
Qed.

(** *** Results do not depend on the fuel *)

Lemma evict_deterministic fuel1 fuel2 ctx c x y :
  evict fuel1 ctx c = Some x -> evict fuel2 ctx c = Some y -> x = y.
Proof.
  intros H1 H2.
  apply (evict_fuel_mono _ (fuel1 `max` fuel2)) in H1; [|lia].
  apply (evict_fuel_mono _ (fuel1 `max` fuel2)) in H2; [|lia].
  congruence.
Qed.

Lemma Set_deterministic fuel1 fuel2 ctx k v c x y :
  Set_ fuel1 ctx k v c = Some x -> Set_ fuel2 ctx k v c = Some y -> x = y.
Proof.
  unfold Set_. destruct (Storage_Set ctx k v (storage c)) as [[err|] s]; [congruence|].
  destruct (items (with_storage c s) !! k); [congruence|].
  apply evict_deterministic.
Qed.

(** The loop, entered where some iterations ago the loop head was, gives
    what it gives from here. *)
Lemma evicts_evict ctx c1 c2 :
  evicts ctx c1 c2 ->
  forall fuel x, evict fuel ctx c2 = Some x ->
  exists fuel', evict fuel' ctx c1 = Some x.
Proof.
  induction 1 as [c|c c1 c2 Hgt Hrem _ IH]; intros fuel x Hev; [eauto|].
  destruct (IH _ _ Hev) as [fuel' Hev1]. exists (Datatypes.S fuel').
  cbn [evict]. rewrite decide_True by done. by rewrite Hrem.
Qed.

End Invariant.

(** ** [Set] calls on distinct keys *)

Section DistinctKeys.
Import container_list LRUCache Run.
Context {S : Type} `{Storage S}.
Implicit Types (c : LRUCache.t S) (done : list string).








End DistinctKeys.

(** *** Over the memory store *)

Section DistinctKeysMemory.
Import container_list LRUCache Run.
Implicit Types (c : LRUCache.t MemoryStorage.t) (done : list string).






End DistinctKeysMemory.

(** ** Moving an element to the front *)

Section Hit.
Import container_list LRUCache Run.

Lemma filter_all {A} (P : A -> Prop) `{forall x, Decision (P x)} (l : list A) :
  (forall x, x ∈ l -> P x) -> filter P l = l.
Proof.
  induction l as [|x l IH]; intros Hall; [done|].
  rewrite filter_cons_True by (apply Hall; left).
  f_equal. apply IH. intros y Hy. apply Hall. by right.
Qed.

(** In a list without repeated addresses or keys, unlinking an element
    leaves the elements of the other keys, in their order. *)
Lemma Remove_filter (l : list Element) (e : Element) :
  NoDup (ptr <$> l) -> NoDup ((fun x => key (Value x)) <$> l) -> e ∈ l ->
  Remove (ptr e) l = filter (fun x => key (Value x) <> key (Value e)) l.
Proof.
  induction l as [|x l IH]; intros Hp Hk Hin; [by apply elem_of_nil in Hin|].
  rewrite fmap_cons in Hp. rewrite fmap_cons in Hk.
  apply NoDup_cons in Hp as [Hxp Hp]. apply NoDup_cons in Hk as [Hxk Hk].
  cbn [Remove]. apply elem_of_cons in Hin as [->|Hin].
  - rewrite decide_True by done. rewrite filter_cons_False by (intros Hne; by apply Hne).
    symmetry. apply filter_all. intros y Hy Heq.
    apply Hxk. rewrite <- Heq. by apply (list_elem_of_fmap_2 (fun x => key (Value x))).
  - rewrite decide_False.
    2: { intros Heq. apply Hxp. rewrite Heq. by apply list_elem_of_fmap_2. }
    rewrite filter_cons_True.
    2: { intros Heq. apply Hxk. rewrite Heq.
         by apply (list_elem_of_fmap_2 (fun x => key (Value x))). }
    f_equal. by apply IH.
Qed.

End Hit.

(** ** The tests of the repository, on the model *)

(** [TestLRUCache_Eviction]: capacity 2, three keys; the store is asked to
    delete "key1", and "key2" and "key3" stay in the index. *)
Example TestLRUCache_Eviction :
  (r1 ← LRUCache.Set_ 1 Background "key1" (bytes_of "value1")
          (LRUCache.NewLRUCache 2 eviction_store);
   r2 ← LRUCache.Set_ 1 Background "key2" (bytes_of "value2") r1.2;
   r3 ← LRUCache.Set_ 1 Background "key3" (bytes_of "value3") r2.2;
   Some (r1.1, r2.1, r3.1, Run.keys_of r3.2,
         mock.was_called "Delete" [mock.ArgContext Background; mock.ArgString "key1"]
           (LRUCache.storage r3.2)))
  = Some (None, None, None, ["key3"; "key2"], true).
Proof. by vm_compute. Qed.

(** [TestLRUCache_GetUpdatesLRU]: [Get "key1"] makes "key2" the oldest, and
    the store is never asked for "key1". *)
Example TestLRUCache_GetUpdatesLRU :
  (r1 ← LRUCache.Set_ 1 Background "key1" (bytes_of "value1")
          (LRUCache.NewLRUCache 2 recency_store);
   r2 ← LRUCache.Set_ 1 Background "key2" (bytes_of "value2") r1.2;
   let g := LRUCache.Get Background "key1" r2.2 in
   r3 ← LRUCache.Set_ 1 Background "key3" (bytes_of "value3") g.2;
   Some (g.1, r3.1, Run.keys_of r3.2,
         mock.was_called "Delete" [mock.ArgContext Background; mock.ArgString "key2"]
           (LRUCache.storage r3.2),
         mock.was_called "Delete" [mock.ArgContext Background; mock.ArgString "key1"]
           (LRUCache.storage r3.2),
         mock.was_called "Get" [mock.ArgContext Background; mock.ArgString "key1"]
           (LRUCache.storage r3.2)))
  = Some (inl (NopCloser (bytes_of "value1")), None, ["key3"; "key1"],
          true, false, false).
Proof. by vm_compute. Qed.

(** [TestLRUCache_EdgeCases]: capacity 0; the key just written is deleted
    from the store. *)
Example TestLRUCache_EdgeCases :
  (r1 ← LRUCache.Set_ 1 Background "key1" (bytes_of "value1")
          (LRUCache.NewLRUCache 0 edge_store);
   Some (r1.1, Run.keys_of r1.2,
         mock.was_called "Delete" [mock.ArgContext Background; mock.ArgString "key1"]
           (LRUCache.storage r1.2)))
  = Some (None, [], true).
Proof. by vm_compute. Qed.

(** [TestMemoryStorage_BasicOperations]. *)
Example TestMemoryStorage_BasicOperations :
  let s1 := (MemoryStorage.Set_ Background "key1" (bytes_of "test data") MemoryStorage.New).2 in
  let s2 := (MemoryStorage.Delete Background "key1" s1).2 in
  (MemoryStorage.Get Background "key1" s1).1 = inl (NopCloser (bytes_of "test data")) /\
  (MemoryStorage.Size s1).1 = 1 /\
  (MemoryStorage.Get Background "nonexistent" s1).1 = inr ErrNotExist /\
  (MemoryStorage.Size s2).1 = 0 /\
  (MemoryStorage.Get Background "key1" s2).1 = inr ErrNotExist.
Proof. by vm_compute. Qed.

(** [TestFileStorage_BasicOperations] and the empty key of
    [TestFileStorage_EdgeCases]. *)
Example TestFileStorage_BasicOperations :
  let s1 := (FileStorage.Set_ Background "key1" (bytes_of "test data") empty_dir).2 in
  let s2 := (FileStorage.Delete Background "key1" s1).2 in
  let s3 := (FileStorage.Set_ Background "" (bytes_of "data") s2).2 in
  (FileStorage.Get Background "key1" s1).1 = inl (NopCloser (bytes_of "test data")) /\
  (FileStorage.Size s1).1 = 1 /\
  (FileStorage.Get Background "nonexistent" s1).1 = inr ErrNotExist /\
  (FileStorage.Size s2).1 = 0 /\
  (FileStorage.Get Background "key1" s2).1 = inr ErrNotExist /\
  (FileStorage.Get Background "" s3).1 = inl (NopCloser (bytes_of "data")) /\
  (FileStorage.Size s3).1 = 1.
Proof. by vm_compute. Qed.

(** The names [TestFileStorage_SanitizeKey] stores its keys under. *)
Example TestFileStorage_SanitizeKey :
  sanitizeKey "host:port/path" = "host_port_path" /\
  sanitizeKey "path/to/file" = "path_to_file" /\
  sanitizeKey "path\to\file" = "path_to_file" /\
  sanitizeKey "../parent" = "parent" /\
  sanitizeKey "host:8080/path/../file" = "host_8080_path____file".
Proof. by vm_compute. Qed.

(** ** Properties of the cache *)

(** Decidable facts on concrete data, by evaluation. *)
Ltac by_compute := apply (bool_decide_unpack _); vm_compute; exact I.

Import container_list LRUCache Run.




(** C2 as stated fails for a negative capacity: the index of a new cache of
    capacity -1 has length 0, which is above -1, and it still has after a
    [Delete] that the memory store carries out without error. *)
Lemma index_within_capacity_counterexample :
  let r := Delete Background "key1" (NewLRUCache (-1) MemoryStorage.New) in
  r.1 = None /\ ~ Len (list_ r.2) <= capacity r.2.
Proof. split; [reflexivity|]. vm_compute. intros Hle. by apply Hle. Qed.

(** C2 (as amended): in every state a cache made by [NewLRUCache] goes
    through under [Get], [Set] and [Delete], whatever the store answers, the
    index is no longer than the capacity, or than 0 when the capacity is
    negative; and with a capacity that is not negative every operation
    started in such a state completes. *)
Theorem index_within_capacity {S} `{Storage S} (cap : Z) (s0 : S) (c : LRUCache.t S) :
  reachable cap s0 c ->
  capacity c = cap /\
  Len (list_ c) <= Z.max 0 cap /\
  (0 <= cap -> forall o, exists c', step c o c').
Proof.
  intros Hreach. destruct (reachable_bound _ _ _ Hreach) as [Hc Hlen].
  split_and!; [done | done |]. intros Hcap o. apply step_total. lia.
Qed.

(** Capacity 2, three keys set over the memory store. *)
Lemma index_within_capacity_witness :
  exists c, reachable 2 MemoryStorage.New c /\ keys_of c = ["key3"; "key2"] /\
    Len (list_ c) <= 2.
Proof.
  eexists. split; [|split].
  - eapply reach_step; [eapply reach_step; [eapply reach_step; [apply reach_new|]|]|].
    + eapply (step_Set 1 Background "key1" (bytes_of "value1")). vm_compute. reflexivity.
    + eapply (step_Set 1 Background "key2" (bytes_of "value2")). vm_compute. reflexivity.
    + eapply (step_Set 1 Background "key3" (bytes_of "value3")). vm_compute. reflexivity.
  - by vm_compute.
  - eapply (index_within_capacity 2 MemoryStorage.New).
    eapply reach_step; [eapply reach_step; [eapply reach_step; [apply reach_new|]|]|].
    + eapply (step_Set 1 Background "key1" (bytes_of "value1")). vm_compute. reflexivity.
    + eapply (step_Set 1 Background "key2" (bytes_of "value2")). vm_compute. reflexivity.
    + eapply (step_Set 1 Background "key3" (bytes_of "value3")). vm_compute. reflexivity.
Defined.

(** C3 as stated fails: with capacity 0 the eviction that follows the write
    deletes the key from the store too, so after [Set] the memory store does
    not hold the value. *)
Lemma Set_zero_capacity_counterexample :
  exists c, Set_ 1 Background "key1" (bytes_of "value1")
              (NewLRUCache 0 MemoryStorage.New) = Some (None, c) /\
    list_ c = [] /\
    (MemoryStorage.Get Background "key1" (storage c)).1 = inr ErrNotExist /\
    (MemoryStorage.Get Background "key1" (storage c)).1 <>
      inl (NopCloser (bytes_of "value1")).
Proof.
  eexists. split; [vm_compute; reflexivity|].
  split_and!; [done | by vm_compute | by vm_compute].
Qed.

(** In a cache of capacity 0 the index is empty. *)
Lemma reachable_zero_empty {S} `{Storage S} (s0 : S) (c : LRUCache.t S) :
  reachable 0 s0 c -> list_ c = [] /\ forall k, items c !! k = None.
Proof.
  intros Hreach.
  assert (list_ c = []) as Hnil.
  { destruct (reachable_bound 0 s0 c Hreach) as [_ Hlen].
    unfold Len in Hlen. destruct (list_ c); [done | simpl in Hlen; lia]. }
  split; [done|]. intros k. destruct (items c !! k) as [p|] eqn:Hk; [|done].
  apply (reachable_wf _ _ _ Hreach) in Hk. rewrite Hnil in Hk.
  by apply elem_of_nil in Hk.
Qed.

(** C3 (as amended): in a cache of capacity 0, a [Set] that returns nil leaves
    the index empty, and it has written the key to the store and then deleted
    it from the store again: the store it leaves is the one after the store's
    [Set] and then the store's [Delete] of the key, both without error.  And
    when these two go through without error, the [Set] does return nil. *)
Theorem Set_zero_capacity {S} `{Storage S} (s0 : S) (ctx : Context)
    (k : string) (v : bytes) (c : LRUCache.t S) :
  reachable 0 s0 c ->
  (forall fuel c', Set_ fuel ctx k v c = Some (None, c') ->
     list_ c' = [] /\ (forall k', items c' !! k' = None) /\
     exists s1, Storage_Set ctx k v (storage c) = (None, s1) /\
                Storage_Delete ctx k s1 = (None, storage c')) /\
  (forall s1 s2, Storage_Set ctx k v (storage c) = (None, s1) ->
     Storage_Delete ctx k s1 = (None, s2) ->
     exists c', Set_ 1 ctx k v c = Some (None, c')).
Proof.
  intros Hreach.
  destruct (reachable_zero_empty _ _ Hreach) as [Hnil Hitems].
  pose proof (reachable_capacity _ _ _ Hreach) as Hcap.
  assert (forall fuel s1,
    evict (Datatypes.S fuel) ctx (push (with_storage c s1) {| key := k; value := v |}) =
    match Storage_Delete ctx k s1 with
    | (Some err, s2) =>
        Some (Some (Errorf_w "failed to delete from storage: " err),
              evicted (push (with_storage c s1) {| key := k; value := v |})
                {| ptr := next c; Value := {| key := k; value := v |} |} s2)
    | (None, s2) =>
        Some (None,
              evicted (push (with_storage c s1) {| key := k; value := v |})
                {| ptr := next c; Value := {| key := k; value := v |} |} s2)
    end) as Hloop.
  { intros fuel s1. cbn [evict].
    rewrite decide_True
      by (unfold push, PushFront; cbn [list_ capacity with_storage];
          rewrite Hnil, Hcap; unfold Len; simpl; lia).
    rewrite (removeOldest_back _ _ {| ptr := next c; Value := {| key := k; value := v |} |})
      by (unfold push, PushFront; cbn [list_ with_storage]; by rewrite Hnil).
    cbn [Value key]. change (storage (push (with_storage c s1) _)) with s1.
    destruct (Storage_Delete ctx k s1) as [[err|] s2]; [done|].
    cbn [fst snd fmap option_fmap option_map]. apply evict_within.
    unfold evicted, push, PushFront. cbn [list_ capacity with_storage Remove ptr].
    rewrite Hnil, Hcap. cbn [Remove ptr]. rewrite decide_True by done.
    unfold Len. simpl. lia. }
  split.
  - intros fuel c' HSet.
    assert (reachable 0 s0 c') as Hreach' by eauto using reachable, step.
    destruct (reachable_zero_empty _ _ Hreach') as [Hnil' Hitems'].
    split_and!; [done | done |].
    revert HSet. unfold Set_.
    destruct (Storage_Set ctx k v (storage c)) as [[err|] s1]; [done|].
    intros HSet. exists s1. split; [done|]. revert HSet.
    cbn [with_storage items]. rewrite Hitems.
    destruct fuel as [|fuel].
    { cbn [evict]. rewrite decide_True; [done|].
      unfold push, PushFront. cbn [list_ capacity with_storage].
      rewrite Hnil, Hcap. unfold Len. simpl. lia. }
    rewrite Hloop. destruct (Storage_Delete ctx k s1) as [[err|] s2]; [done|].
    by intros [= <-].
  - intros s1 s2 HSet HDel. unfold Set_. rewrite HSet.
    cbn [with_storage items]. rewrite Hitems, Hloop, HDel. eauto.
Qed.

(** The [Set] of the edge-case test, over the memory store. *)
Lemma Set_zero_capacity_witness :
  exists c', Set_ 1 Background "key1" (bytes_of "value1")
               (NewLRUCache 0 MemoryStorage.New) = Some (None, c') /\
    list_ c' = [] /\
    exists s1, MemoryStorage.Set_ Background "key1" (bytes_of "value1")
                 MemoryStorage.New = (None, s1) /\
               MemoryStorage.Delete Background "key1" s1 = (None, storage c').
Proof.
  eexists. split; [vm_compute; reflexivity|].
  match goal with |- list_ ?c' = _ /\ _ =>
    destruct (proj1 (Set_zero_capacity MemoryStorage.New Background "key1"
                       (bytes_of "value1") (NewLRUCache 0 MemoryStorage.New)
                       (reach_new 0 MemoryStorage.New)) 1%nat c')
      as (Hnil & _ & Hstore)
  end.
  - vm_compute. reflexivity.
  - split; [exact Hnil | exact Hstore].
Defined.

(** With a negative capacity a [Set] of a key that is not in the index never
    returns nil, whatever the fuel: the loop cannot be left. *)
Lemma Set_negative_capacity {S} `{Storage S} (fuel : nat) (ctx : Context)
    (k : string) (v : bytes) (c c' : LRUCache.t S) :
  capacity c < 0 -> items c !! k = None ->
  Set_ fuel ctx k v c <> Some (None, c').
Proof.
  intros Hneg Hk. unfold Set_.
  destruct (Storage_Set ctx k v (storage c)) as [[err|] s]; [done|].
  cbn [with_storage items]. rewrite Hk. by apply evict_negative_capacity.
Qed.

(** C5: when the store's [Set] returns an error, [LRUCache.Set] returns that
    error and the index is as it was: the list, the map and the capacity are
    unchanged. *)
Theorem Set_store_error {S} `{Storage S} (fuel : nat) (ctx : Context)
    (k : string) (v : bytes) (c : LRUCache.t S) (err : error) (s : S) :
  Storage_Set ctx k v (storage c) = (Some err, s) ->
  exists c', Set_ fuel ctx k v c = Some (Some err, c') /\
    list_ c' = list_ c /\ items c' = items c /\ capacity c' = capacity c /\
    next c' = next c /\ storage c' = s.
Proof.
  intros HSet. exists (with_storage c s). unfold Set_. by rewrite HSet.
Qed.

Lemma Set_store_error_witness :
  exists c', Set_ 0 Cancelled "key2" (bytes_of "value2") one_key = Some (Some Canceled, c') /\
    list_ c' = list_ one_key /\ items c' = items one_key.
Proof.
  destruct (Set_store_error 0 Cancelled "key2" (bytes_of "value2") one_key
              Canceled (storage one_key)) as (c' & HSet & Hl & Hi & _).
  - reflexivity.
  - exists c'. split_and!; [exact HSet | exact Hl | exact Hi].
Defined.

(** C6: when, in an iteration of the eviction loop of a [Set], the store's
    [Delete] returns an error [E], the [Set] returns an error whose message is
    "failed to delete from storage: " followed by the message of [E] (it does
    return, and it returns nothing else). *)
Theorem Set_eviction_error {S} `{Storage S} (ctx : Context) (k : string) (v : bytes)
    (c c2 : LRUCache.t S) (s s' : S) (e : Element) (E : error) :
  Storage_Set ctx k v (storage c) = (None, s) ->
  items c !! k = None ->
  evicts ctx (push (with_storage c s) {| key := k; value := v |}) c2 ->
  Len (list_ c2) > capacity c2 ->
  Back (list_ c2) = Some e ->
  Storage_Delete ctx (key (Value e)) (storage c2) = (Some E, s') ->
  exists err,
    Error err = "failed to delete from storage: " +:+ Error E /\
    (exists fuel c', Set_ fuel ctx k v c = Some (Some err, c')) /\
    (forall fuel r c', Set_ fuel ctx k v c = Some (r, c') -> r = Some err).
Proof.
  intros HSet Hk Hloop Hgt Hback HDel.
  exists (Errorf_w "failed to delete from storage: " E). split; [done|].
  assert (exists fuel c', Set_ fuel ctx k v c =
            Some (Some (Errorf_w "failed to delete from storage: " E), c'))
    as (fuel & c' & Hres).
  { assert (evict 1 ctx c2 =
            Some (Some (Errorf_w "failed to delete from storage: " E), evicted c2 e s'))
      as Hev.
    { cbn [evict]. rewrite decide_True by done.
      rewrite (removeOldest_back _ _ _ Hback), HDel. done. }
    destruct (evicts_evict _ _ _ Hloop _ _ Hev) as [fuel Hev1].
    exists fuel, (evicted c2 e s'). unfold Set_. rewrite HSet.
    cbn [with_storage items]. by rewrite Hk. }
  split; [eauto|]. intros fuel' r c'' Hres'.
  pose proof (Set_deterministic _ _ _ _ _ _ _ _ Hres Hres'). congruence.
Qed.

Lemma Set_eviction_error_witness :
  exists c, Set_ 1 Background "key1" (bytes_of "value1")
              (NewLRUCache 1 failing_delete) = Some (None, c) /\
    exists err,
      Error err = "failed to delete from storage: storage error" /\
      (exists fuel c', Set_ fuel Background "key2" (bytes_of "value2") c =
                         Some (Some err, c')) /\
      (forall fuel r c', Set_ fuel Background "key2" (bytes_of "value2") c =
                           Some (r, c') -> r = Some err).
Proof.
  eexists. split; [vm_compute; reflexivity|].
  match goal with |- context [Set_ _ _ _ _ ?c] =>
    apply (Set_eviction_error Background "key2" (bytes_of "value2") c
             (push (with_storage c (Storage_Set Background "key2" (bytes_of "value2")
                                      (storage c)).2)
                   {| key := "key2"; value := bytes_of "value2" |})
             (Storage_Set Background "key2" (bytes_of "value2") (storage c)).2
             (Storage_Delete Background "key1"
                (Storage_Set Background "key2" (bytes_of "value2") (storage c)).2).2
             {| ptr := 0; Value := {| key := "key1"; value := bytes_of "value1" |} |}
             (errorString "storage error"))
  end.
  - vm_compute. reflexivity.
  - by vm_compute.
  - apply evicts_refl.
  - by vm_compute.
  - by vm_compute.
  - vm_compute. reflexivity.
Defined.

(** C7: [Get] of a key that is in the index returns the bytes cached for it
    and moves its element to the front; the other elements keep their order,
    the map is unchanged, and the store is the very store of before, for
    every implementation of [Storage] and every context: no method of the
    store is called. *)
Theorem Get_hit {S} `{Storage S} (ctx : Context) (k : string)
    (c : LRUCache.t S) (e : Element) :
  wf c -> e ∈ list_ c -> key (Value e) = k ->
  Get ctx k c =
    (inl (NopCloser (value (Value e))),
     {| capacity := capacity c;
        list_ := e :: filter (fun x => key (Value x) <> k) (list_ c);
        items := items c; storage := storage c; next := next c |}).
Proof.
  intros Hwf Hin <-. pose proof Hwf as (Hp & Hk & Hit & _).
  assert (items c !! key (Value e) = Some (ptr e)) as Hl.
  { apply Hit, elem_of_index. eauto. }
  unfold Get. rewrite Hl. unfold MoveToFront.
  rewrite (find_elem_NoDup _ _ Hp Hin). cbn [find_elem].
  rewrite decide_True by done. unfold with_list.
  by rewrite (Remove_filter _ _ Hp Hk Hin).
Qed.

Lemma two_keys_wf : wf two_keys.
Proof.
  unfold wf, keys_of, two_keys. cbn [list_ items next].
  split_and!; [by_compute | by_compute | |].
  - intros k p. rewrite elem_of_index. split.
    + intros Hl. apply lookup_insert_Some in Hl as [[<- <-]|[Hne Hl]].
      { eexists. split; [right; left|done]. }
      apply lookup_singleton_Some in Hl as [<- <-].
      eexists. split; [left|done].
    + intros (x & Hx & <- & <-).
      apply elem_of_cons in Hx as [->|Hx]; [by vm_compute|].
      apply list_elem_of_singleton in Hx as ->. by vm_compute.
  - intros x Hx. apply elem_of_cons in Hx as [->|Hx]; [simpl; lia|].
    apply list_elem_of_singleton in Hx as ->. simpl. lia.
Qed.

Lemma Get_hit_witness :
  exists c', Get Cancelled "key1" two_keys = (inl (NopCloser (bytes_of "value1")), c') /\
    keys_of c' = ["key1"; "key2"] /\ mock.Calls (storage c') = [].
Proof.
  eexists. split.
  - apply (Get_hit Cancelled "key1" two_keys
             {| ptr := 0; Value := {| key := "key1"; value := bytes_of "value1" |} |}).
    + apply two_keys_wf.
    + right. left.
    + reflexivity.
  - split; by vm_compute.
Defined.

(** ** The file store *)

Section FileFacts.
Import FileStore.

(** *** Sanitized keys have no separator *)

Lemma has_slash_map (s : string) :
  has_char "/" (map_string underscore_separator s) = false.
Proof.
  induction s as [|c s IH]; [done|]. cbn [map_string has_char]. rewrite IH.
  unfold underscore_separator.
  destruct (Ascii.eqb c ":"); [done|].
  destruct (Ascii.eqb c "/") eqn:E; [done|].
  destruct (Ascii.eqb c "\"); [done|]. by rewrite E.
Qed.

Lemma has_slash_dotdot (s : string) :
  has_char "/" s = false ->
  has_char "/" (replace_dotdot s) = false /\
  forall c, Ascii.eqb c "/" = false ->
    has_char "/" (replace_dotdot (String c s)) = false.
Proof.
  induction s as [|c s IH].
  - intros _. split; [done|]. intros c Hc. cbn. by rewrite Hc.
  - cbn [has_char]. intros [Hc Hs]%orb_false_elim.
    destruct (IH Hs) as [IH0 IH1]. split; [by apply IH1|].
    intros c0 Hc0. cbn [replace_dotdot].
    destruct (Ascii.eqb c0 "." && Ascii.eqb c ".").
    + cbn [has_char]. by rewrite IH0.
    + cbn [has_char]. rewrite Hc0. by apply IH1.
Qed.

Lemma has_slash_strip (s : string) :
  has_char "/" s = false -> has_char "/" (strip_underscores s) = false.
Proof.
  induction s as [|c s IH]; [done|]. cbn [has_char strip_underscores].
  intros [Hc Hs]%orb_false_elim.
  destruct (Ascii.eqb c "_"); [by apply IH|]. cbn [has_char]. by rewrite Hc, Hs.
Qed.

Lemma sanitizeKey_no_slash (k : string) : has_char "/" (sanitizeKey k) = false.
Proof.
  rewrite sanitizeKey_described. unfold sanitize_described.
  destruct (decide (k = "")); [done|].
  apply has_slash_strip, has_slash_dotdot, has_slash_map.
Qed.

Lemma Split_no_sep (s : string) (sep : ascii) :
  has_char sep s = false -> strings.Split s sep = [s].
Proof.
  induction s as [|c s IH]; [done|]. cbn [has_char strings.Split].
  intros [Hc Hs]%orb_false_elim. by rewrite Hc, (IH Hs).
Qed.

(** The path of a key is the base directory, the one above it, or a name
    directly in the base directory. *)
Lemma path_of_cases (s : FileStorage.t) (k : string) :
  path_of s k = filepath.clean_step (FileStorage.baseDir s) (sanitizeKey k).
Proof.
  unfold path_of, filepath.Join.
  by rewrite (Split_no_sep _ _ (sanitizeKey_no_slash k)).
Qed.

(** *** Ancestors *)

Lemma ancestors_snoc (p : path) (x : string) :
  os.ancestors (p ++ [x]) = os.ancestors p ++ [p].
Proof.
  unfold os.ancestors. rewrite length_app. cbn [length].
  rewrite Nat.add_1_r, seq_S, fmap_app. cbn [fmap list_fmap plus].
  rewrite take_app_length. f_equal.
  apply list_fmap_ext. intros i n Hn. apply lookup_seq in Hn as [-> Hlt].
  rewrite take_app_le by lia. done.
Qed.

Lemma ancestors_take (p q : path) :
  q ∈ os.ancestors p -> exists n, q = take n p.
Proof. unfold os.ancestors. intros (n & -> & _)%list_elem_of_fmap. eauto. Qed.

Lemma removelast_take {A} (l : list A) : removelast l = take (length l - 1) l.
Proof.
  induction l as [|x l IH] using rev_ind; [done|].
  rewrite removelast_last, length_app. cbn [length].
  replace (length l + 1 - 1)%nat with (length l) by lia.
  by rewrite take_app_length.
Qed.

Lemma path_of_ancestors (s : FileStorage.t) (k : string) (q : path) :
  q ∈ os.ancestors (path_of s k) -> exists n, q = take n (FileStorage.baseDir s).
Proof.
  rewrite path_of_cases. unfold filepath.clean_step.
  repeat case_decide; try apply ancestors_take.
  - intros [n ->]%ancestors_take. rewrite removelast_take, take_take. eauto.
  - rewrite ancestors_snoc.
    intros [Hq| ->%list_elem_of_singleton]%elem_of_app; [by apply ancestors_take|].
    exists (length (FileStorage.baseDir s)). by rewrite take_ge.
Qed.

(** With the base directory there, a name that is missing is reported as
    missing, not as lying under a regular file. *)
Lemma lookup_errno_mounted (st : FileStorage.state) (k : string) :
  mounted st -> os.lookup_errno (path_of st.1 k) st.2 = ENOENT.
Proof.
  intros Hm. unfold os.lookup_errno.
  destruct (existsb _ _) eqn:Hex; [|done].
  apply existsb_exists in Hex as (q & Hq & Hfile).
  apply list_elem_of_In, path_of_ancestors in Hq as [n ->].
  destruct (Hm n) as [_ Hnot]. simpl in Hnot. congruence.
Qed.

(** *** [MkdirAll] *)

Lemma mkdir_each_files (ps : list path) (fs fs' : os.FileSys) (r : option error) :
  os.mkdir_each ps fs = (r, fs') -> os.files fs' = os.files fs.
Proof.
  revert fs. induction ps as [|q ps IH]; intros fs; cbn [os.mkdir_each].
  - by intros [= _ <-].
  - destruct (os.is_file q fs); [by intros [= _ <-]|].
    intros Hm. by apply IH in Hm.
Qed.

Lemma mkdir_each_blocked (ps : list path) (fs : os.FileSys) (q : path) :
  q ∈ ps -> os.is_file q fs = true -> (os.mkdir_each ps fs).1 <> None.
Proof.
  revert fs. induction ps as [|q' ps IH]; intros fs Hin Hfile;
    [by apply elem_of_nil in Hin|].
  cbn [os.mkdir_each]. destruct (os.is_file q' fs) eqn:Hq'; [done|].
  apply elem_of_cons in Hin as [->|Hin]; [congruence|].
  by apply IH.
Qed.

Lemma MkdirAll_blocked (p : path) (fs : os.FileSys) :
  os.lookup_errno p fs = ENOTDIR ->
  (os.MkdirAll (filepath.Dir p) fs).1 <> None.
Proof.
  unfold os.lookup_errno, os.MkdirAll, filepath.Dir.
  destruct (existsb _ _) eqn:Hex; [|done]. intros _.
  apply existsb_exists in Hex as (q & Hq & Hfile). apply list_elem_of_In in Hq.
  destruct p as [|x p _] using rev_ind; [by apply elem_of_nil in Hq|].
  rewrite ancestors_snoc in Hq. rewrite removelast_last.
  by apply (mkdir_each_blocked _ _ q).
Qed.

Lemma is_file_files (p : path) (fs fs' : os.FileSys) :
  os.files fs' = os.files fs -> os.is_file p fs' = os.is_file p fs.
Proof. unfold os.is_file. by intros ->. Qed.

(** *** [Set] and [Delete], step by step *)

(** A [Set] that returns nil has written the file, and has counted it if
    the path named nothing before. *)
Lemma Set_nil (ctx : Context) (k : string) (d : bytes) (s s' : FileStorage.t)
    (fs fs' : os.FileSys) :
  FileStorage.Set_ ctx k d (s, fs) = (None, (s', fs')) ->
  Err ctx = None /\
  os.files fs' = <[path_of s k := d]> (os.files fs) /\
  FileStorage.baseDir s' = FileStorage.baseDir s /\
  FileStorage.size s' =
    if present (path_of s k) fs then FileStorage.size s
    else int_add (FileStorage.size s) 1.
Proof.
  unfold FileStorage.Set_. fold (path_of s k).
  destruct (Err ctx) as [err|]; [done|].
  pose proof (MkdirAll_blocked (path_of s k) fs) as Hblocked.
  destruct (os.MkdirAll (filepath.Dir (path_of s k)) fs) as [[err|] fs1] eqn:Hmk; [done|].
  apply mkdir_each_files in Hmk.
  unfold os.WriteFile.
  destruct (os.is_dir (path_of s k) fs1); [done|].
  destruct (os.is_file (path_of s k) fs1 || os.is_dir (filepath.Dir (path_of s k)) fs1);
    [|done].
  unfold os.Stat. fold (present (path_of s k) fs).
  destruct (present (path_of s k) fs).
  - cbn. intros [= <- <-]. cbn. by rewrite Hmk.
  - cbn [IsNotExist]. unfold os.lookup_errno in *.
    destruct (existsb _ (os.ancestors (path_of s k))); [by destruct (Hblocked eq_refl)|].
    cbn. intros [= <- <-]. cbn. by rewrite Hmk.
Qed.




End FileFacts.

(** ** Properties of the stores *)

(** C4 as stated fails in its example: the two separators around ".." become
    underscores as well, so four underscores stand between "path" and
    "file". *)
Lemma sanitizeKey_example_counterexample :
  sanitizeKey "host:8080/path/../file" <> "host_8080_path__file".
Proof. by vm_compute. Qed.

(** C4 (as amended): [sanitizeKey] maps the empty key to "empty" and, for any
    other key, replaces colons, slashes and backslashes by underscores, then
    every ".." by "__", then strips the leading underscores; it maps
    "host:8080/path/../file" to "host_8080_path____file". *)
Theorem sanitizeKey_spec :
  (forall k, sanitizeKey k = sanitize_described k) /\
  sanitizeKey "" = "empty" /\
  sanitizeKey "host:8080/path/../file" = "host_8080_path____file".
Proof. split_and!; [apply sanitizeKey_described | done | by vm_compute]. Qed.

(** C8 as stated fails for [Size]: it takes no context, and with a cancelled
    context around it still returns the count and no error. *)
Lemma storage_methods_context_counterexample :
  head (params MSize) <> Some TContext /\
  (call MSize Cancelled "key1" [] MemoryStorage.New).1 <> Some Canceled /\
  (Storage_Size MemoryStorage.New).1 = 0.
Proof. split_and!; [done | done | by vm_compute]. Qed.

(** C8 (as amended): [Get], [Set] and [Delete] take a context as their first
    parameter and, when it is cancelled or expired, return its error and leave
    the store as it was, in the memory store and in the file store; [Size]
    takes no context and returns the count, leaving the store as it was. *)
Theorem storage_methods_context (m : StorageMethod) (ctx : Context) (err : error)
    (k : string) (d : bytes) :
  Err ctx = Some err ->
  (m <> MSize ->
     head (params m) = Some TContext /\
     (forall s : MemoryStorage.t, call m ctx k d s = (Some err, s)) /\
     (forall st : FileStorage.state, call m ctx k d st = (Some err, st))) /\
  params MSize = [] /\
  (forall s : MemoryStorage.t,
     Storage_Size s = (Z.of_nat (size (MemoryStorage.data s)), s)) /\
  (forall st : FileStorage.state,
     Storage_Size st = (FileStorage.size st.1, st)).
Proof.
  intros Hctx. split_and!; try done.
  intros Hm. destruct m; try done;
    (split_and!; [done | intros s | intros [s fs]]);
    unfold call;
    cbn [Storage_Get Storage_Set Storage_Delete MemoryStorage_Storage FileStorage_Storage];
    unfold MemoryStorage.Get, MemoryStorage.Set_, MemoryStorage.Delete,
      FileStorage.Get, FileStorage.Set_, FileStorage.Delete;
    by rewrite Hctx.
Qed.

Lemma storage_methods_context_witness :
  call MDelete Cancelled "key1" [] (storage one_key) = (Some Canceled, storage one_key) /\
  call MSet Expired "key1" [] empty_dir = (Some DeadlineExceeded, empty_dir).
Proof.
  split.
  - by apply (storage_methods_context MDelete Cancelled Canceled "key1" []).
  - by apply (storage_methods_context MSet Expired DeadlineExceeded "key1" []).
Defined.


Lemma empty_dir_mounted : FileStore.mounted empty_dir.
Proof. intros [|[|[|n]]]; by vm_compute. Qed.


(** C10: the sanitizer is not injective, "a:b" and "a/b" both give "a_b"; and
    whenever two keys give the same name, a [Set] of the second after a [Set]
    of the first (both returning nil) leaves the count as it was and makes
    [Get] of the first key return the bytes of the second. *)
Theorem sanitizeKey_collision :
  "a:b" <> "a/b" /\ "a:b" <> "" /\ "a/b" <> "" /\
  sanitizeKey "a:b" = sanitizeKey "a/b" /\
  forall (k1 k2 : string) (d1 d2 : bytes) (st st1 st2 : FileStorage.state),
    sanitizeKey k1 = sanitizeKey k2 ->
    FileStorage.Set_ Background k1 d1 st = (None, st1) ->
    FileStorage.Set_ Background k2 d2 st1 = (None, st2) ->
    (FileStorage.Get Background k1 st2).1 = inl (NopCloser d2) /\
    (FileStorage.Size st2).1 = (FileStorage.Size st1).1.
Proof.
  split_and!; try done.
  intros k1 k2 d1 d2 [s fs] [s1 fs1] [s2 fs2] Hsame HSet1 HSet2.
  apply Set_nil in HSet1 as (_ & Hfiles1 & Hbase1 & _).
  apply Set_nil in HSet2 as (_ & Hfiles2 & Hbase2 & Hsize2).
  assert (FileStore.path_of s2 k1 = FileStore.path_of s k1) as Hp2
    by (unfold FileStore.path_of; congruence).
  assert (FileStore.path_of s1 k2 = FileStore.path_of s k1) as Hp1
    by (unfold FileStore.path_of; congruence).
  rewrite Hp1 in *. split.
  - unfold FileStorage.Get. cbn [Err]. fold (FileStore.path_of s2 k1).
    rewrite Hp2. unfold os.Open. by rewrite Hfiles2, lookup_insert_eq.
  - cbn [FileStorage.Size fst]. rewrite Hsize2.
    unfold FileStore.present, os.is_file.
    rewrite Hfiles1, lookup_insert_eq. by rewrite bool_decide_eq_true_2.
Qed.

Lemma sanitizeKey_collision_witness :
  exists st1 st2,
    FileStorage.Set_ Background "a:b" (bytes_of "v1") empty_dir = (None, st1) /\
    FileStorage.Set_ Background "a/b" (bytes_of "v2") st1 = (None, st2) /\
    (FileStorage.Get Background "a:b" st2).1 = inl (NopCloser (bytes_of "v2")) /\
    (FileStorage.Size st2).1 = 1.
Proof.
  eexists. eexists. split; [vm_compute; reflexivity|]. split; [vm_compute; reflexivity|].
  match goal with |- (FileStorage.Get _ _ ?st2).1 = _ /\ _ =>
    destruct (proj2 (proj2 (proj2 (proj2 sanitizeKey_collision)))
                "a:b" "a/b" (bytes_of "v1") (bytes_of "v2") empty_dir
                (FileStorage.Set_ Background "a:b" (bytes_of "v1") empty_dir).2 st2)
      as [HGet HSize]
  end.
  - by vm_compute.
  - vm_compute. reflexivity.
  - vm_compute. reflexivity.
  - split; [exact HGet|]. rewrite HSize. by vm_compute.
Defined.

(** * Further properties *)

(** ** The index as a list of entries *)

Section Entries.
Context {S : Type} `{Storage S}.
Implicit Types (c : LRUCache.t S) (l : list Element) (e : Element).

Lemma entries_keys c : (entries_of c).*1 = keys_of c.
Proof. unfold entries_of, keys_of. by rewrite <- list_fmap_compose. Qed.

Lemma entries_length c : length (entries_of c) = length (list_ c).
Proof. unfold entries_of. by rewrite length_fmap. Qed.

Lemma filter_fmap {A B} (f : A -> B) (P : B -> Prop) `{forall x, Decision (P x)}
    (l : list A) :
  filter P (f <$> l) = f <$> filter (fun x => P (f x)) l.
Proof.
  induction l as [|x l IH]; [done|]. rewrite fmap_cons, !filter_cons.
  destruct (decide (P (f x))); rewrite IH; done.
Qed.

Lemma filter_other_keys (k : string) (es : list (string * bytes)) :
  k ∉ es.*1 -> filter (fun kv => kv.1 <> k) es = es.
Proof.
  intros Hk. apply filter_all. intros [k' v'] Hin Heq. simpl in Heq. subst k'.
  apply Hk. by apply (list_elem_of_fmap_2 fst) in Hin.
Qed.

(** Unlinking an element takes the entry of its key out of the entries. *)
Lemma Remove_entries c e :
  wf c -> e ∈ list_ c ->
  (fun x => (key (Value x), value (Value x))) <$> Remove (ptr e) (list_ c) =
  filter (fun kv => kv.1 <> key (Value e)) (entries_of c).
Proof.
  intros (Hp & Hk & _) Hin. rewrite (Remove_filter _ _ Hp Hk Hin).
  unfold entries_of. by rewrite filter_fmap.
Qed.

Lemma wf_lookup c k :
  wf c -> items c !! k = None <-> k ∉ keys_of c.
Proof.
  intros Hwf. unfold keys_of. rewrite <- index_keys. split.
  - intros Hnone ([k' p] & Heq & Hin)%list_elem_of_fmap.
    apply Hwf in Hin. simpl in Heq. congruence.
  - intros Hnot. destruct (items c !! k) as [p|] eqn:Hl; [|done].
    exfalso. apply Hnot. apply Hwf in Hl. by apply (list_elem_of_fmap_2 fst) in Hl.
Qed.

Lemma wf_lookup_Some c k p :
  wf c -> items c !! k = Some p ->
  exists e, e ∈ list_ c /\ key (Value e) = k /\ ptr e = p /\
            find_elem p (list_ c) = Some e.
Proof.
  intros Hwf Hl. pose proof Hwf as (Hp & _ & Hit & _).
  apply Hit, elem_of_index in Hl as (e & Hin & <- & <-).
  exists e. split_and!; try done. by apply find_elem_NoDup.
Qed.

(** [Get] of the key at the front: its bytes, and the cache as it was. *)
Lemma Get_head ctx c k v rest :
  wf c -> entries_of c = (k, v) :: rest -> Get ctx k c = (inl (NopCloser v), c).
Proof.
  intros Hwf Hent. unfold entries_of in Hent.
  destruct (list_ c) as [|e l] eqn:Hl; [done|].
  rewrite fmap_cons in Hent. injection Hent as Hk Hv _.
  assert (items c !! k = Some (ptr e)) as Hit.
  { apply Hwf, elem_of_index. exists e. rewrite Hl. split; [left | done]. }
  unfold Get. rewrite Hit, Hl. unfold MoveToFront. cbn [find_elem Remove].
  rewrite !decide_True by done. cbn [find_elem]. rewrite decide_True by done.
  rewrite Hv. f_equal. destruct c; simpl in *; by subst.
Qed.

(** The entry pushed on an index of positive capacity that does not have the
    key: within the capacity nothing is evicted; on a full index
    [removeOldest] takes the entry at the back, and asks the store to delete
    its key. *)
Lemma after_push ctx c k v :
  let c1 := push c {| key := k; value := v |} in
  wf c -> items c !! k = None -> 0 < capacity c -> Len (list_ c) <= capacity c ->
  (Len (list_ c) < capacity c /\ ~ Len (list_ c1) > capacity c1 /\
   entries_of c1 = take (Z.to_nat (capacity c)) ((k, v) :: entries_of c)) \/
  (Len (list_ c) = capacity c /\ Len (list_ c1) > capacity c1 /\
   exists e, last (list_ c) = Some e /\
     removeOldest ctx c1 =
       (Errorf_w "failed to delete from storage: " <$>
          (Storage_Delete ctx (key (Value e)) (storage c)).1,
        evicted c1 e (Storage_Delete ctx (key (Value e)) (storage c)).2) /\
     forall s, ~ Len (list_ (evicted c1 e s)) > capacity c /\
       entries_of (evicted c1 e s) =
         take (Z.to_nat (capacity c)) ((k, v) :: entries_of c)).
Proof.
  intros c1 Hwf Hk Hcap Hlen.
  assert (Len (list_ c1) = Len (list_ c) + 1) as HLen1 by apply push_Len.
  assert (entries_of c1 = (k, v) :: entries_of c) as Hent1 by done.
  pose proof (entries_length c) as Hel. unfold Len in *.
  destruct (decide (Z.of_nat (length (list_ c)) < capacity c)) as [Hlt|Hfull].
  { left. split_and!; [done | change (capacity c1) with (capacity c); lia |].
    rewrite Hent1. symmetry. apply take_ge. cbn [length]. lia. }
  right. split_and!; [lia | change (capacity c1) with (capacity c); lia |].
  destruct (last (list_ c)) as [e|] eqn:Hlast.
  2: { apply last_None in Hlast. rewrite Hlast in *. simpl in *. lia. }
  exists e. assert (last (list_ c1) = Some e) as Hlast1.
  { change (list_ c1) with ({| ptr := next c; Value := {| key := k; value := v |} |} :: list_ c).
    by rewrite last_cons, Hlast. }
  split; [done|]. split; [by rewrite (removeOldest_back _ _ _ Hlast1)|].
  intros s. assert (wf c1) as Hwf1 by (by apply wf_push).
  unfold evicted, entries_of. cbn [list_].
  rewrite (Remove_last _ _ (proj1 Hwf1) Hlast1).
  change (list_ c1) with ({| ptr := next c; Value := {| key := k; value := v |} |} :: list_ c).
  pose proof Hlast as (l1 & Hl1)%last_Some. rewrite Hl1 in *.
  rewrite length_app in *. cbn [length] in *.
  change (?x :: l1 ++ [e]) with ((x :: l1) ++ [e]). rewrite removelast_last.
  split; [cbn [length]; lia|].
  rewrite !fmap_cons, fmap_app. cbn [fmap list_fmap].
  change ((k, v) :: ?a ++ ?b) with (((k, v) :: a) ++ b).
  rewrite take_app_length'; [done|]. cbn [length]. rewrite length_fmap. lia.
Qed.

(** The index after a [Set] that returns nil, in a cache of positive
    capacity: the entry is at the front, an older entry of the key is gone,
    and what is over the capacity has left at the back. *)
Lemma Set_nil_entries fuel ctx k v c c' :
  wf c -> 0 < capacity c -> Len (list_ c) <= capacity c ->
  Set_ fuel ctx k v c = Some (None, c') ->
  entries_of c' =
    take (Z.to_nat (capacity c))
         ((k, v) :: filter (fun kv => kv.1 <> k) (entries_of c)).
Proof.
  intros Hwf Hcap Hlen. unfold Set_.
  destruct (Storage_Set ctx k v (storage c)) as [[err|] s1]; [done|].
  pose proof (wf_with_storage c s1 Hwf) as Hwf1.
  destruct (items (with_storage c s1) !! k) as [p|] eqn:Hit.
  - intros [= <-].
    destruct (wf_lookup_Some _ _ _ Hwf1 Hit) as (e & Hin & Hke & Hpe & Hfind).
    cbn [with_storage list_] in *. unfold MoveToFront. rewrite Hfind.
    cbn [set_value]. rewrite decide_True by done.
    unfold entries_of at 1. cbn [with_list list_]. rewrite fmap_cons.
    cbn [Value key value ptr]. rewrite <- Hpe, (Remove_entries c e Hwf Hin), Hke.
    symmetry. apply take_ge. cbn [length].
    pose proof (length_filter_lt (fun kv : string * bytes => kv.1 <> k) (entries_of c)
                  (key (Value e), value (Value e))) as Hf.
    rewrite entries_length in Hf. unfold Len in Hlen.
    assert ((length (filter (fun kv : string * bytes => kv.1 <> k) (entries_of c))
             < length (list_ c))%nat); [|lia].
    apply Hf; [|by intros Hne; apply Hne].
    unfold entries_of. by apply (list_elem_of_fmap_2 (fun e => (key (Value e), value (Value e)))).
  - rewrite filter_other_keys.
    2: { rewrite entries_keys. by apply (wf_lookup (with_storage c s1)). }
    destruct (after_push ctx (with_storage c s1) k v Hwf1 Hit Hcap Hlen)
      as [(_ & Hle & Hent)|(_ & Hgt & e & _ & Hrem & Hev)].
    + rewrite evict_within by done. by intros [= <-].
    + destruct fuel as [|fuel]; cbn [evict]; rewrite decide_True by done; [done|].
      rewrite Hrem.
      destruct (Storage_Delete ctx (key (Value e)) (storage (with_storage c s1)))
        as [[err|] s2]; [done|].
      cbn [fst snd fmap option_fmap option_map].
      destruct (Hev s2) as [Hle Hent].
      rewrite evict_within by done. by intros [= <-].
Qed.

(** A [Get] of a key that is not in the index and that the store has, in a
    cache of positive capacity. *)
Lemma Get_miss_entries ctx k c data s v r c' :
  wf c -> 0 < capacity c -> Len (list_ c) <= capacity c ->
  items c !! k = None ->
  Storage_Get ctx k (storage c) = (inl data, s) ->
  ReadAll data = (v, None) ->
  Get ctx k c = (r, c') ->
  wf c' /\
  entries_of c' = take (Z.to_nat (capacity c)) ((k, v) :: entries_of c) /\
  (r = inl (NopCloser v) \/
   exists ko E s', Storage_Delete ctx ko s = (Some E, s') /\
     r = inr (Errorf_w "failed to delete from storage: " E)).
Proof.
  intros Hwf Hcap Hlen Hk HGet Hread Hres.
  split; [by apply (Get_keeps _ _ _ _ _ Hres)|].
  revert Hres. unfold Get. rewrite Hk, HGet, Hread.
  pose proof (wf_with_storage c s Hwf) as Hwf1.
  destruct (after_push ctx (with_storage c s) k v Hwf1 Hk Hcap Hlen)
    as [(_ & Hle & Hent)|(_ & Hgt & e & _ & Hrem & Hev)].
  - rewrite decide_False by done. intros [= <- <-]. split; [done | by left].
  - rewrite decide_True by done. rewrite Hrem.
    destruct (Storage_Delete ctx (key (Value e)) (storage (with_storage c s)))
      as [[E|] s2] eqn:HDel; cbn [fst snd fmap option_fmap option_map];
      intros [= <- <-]; (split; [apply Hev|]); [right | by left].
    exists (key (Value e)), E, s2. by split.
Qed.

(** [Delete]: the entry of the key leaves the index, and the store is asked
    to delete the key whether it was in the index or not. *)
Lemma Delete_entries_wf ctx k c r c' :
  wf c -> Delete ctx k c = (r, c') ->
  entries_of c' = filter (fun kv => kv.1 <> k) (entries_of c) /\
  items c' !! k = None /\
  Storage_Delete ctx k (storage c) = (r, storage c').
Proof.
  intros Hwf. unfold Delete. destruct (items c !! k) as [p|] eqn:Hit.
  - destruct (wf_lookup_Some _ _ _ Hwf Hit) as (e & Hin & Hke & Hpe & _).
    cbn [storage]. destruct (Storage_Delete ctx k (storage c)) as [err s].
    intros [= <- <-]. cbn [with_storage items storage].
    split_and!; [|apply lookup_delete_eq | done].
    unfold entries_of at 1. cbn [list_ with_storage].
    by rewrite <- Hpe, (Remove_entries c e Hwf Hin), Hke.
  - destruct (Storage_Delete ctx k (storage c)) as [err s].
    intros [= <- <-]. cbn [with_storage items storage]. split_and!; [|done|done].
    rewrite filter_other_keys; [done|].
    rewrite entries_keys. by apply (wf_lookup c).
Qed.

(** Runs of [Set] calls go through states of the cache. *)
Lemma run_sets_reachable cap (s0 : S) calls c c' :
  reachable cap s0 c -> run_sets calls c c' -> reachable cap s0 c'.
Proof.
  intros Hreach Hrun. induction Hrun as [|fuel call calls c c1 c2 HSet _ IH]; [done|].
  apply IH. eapply reach_step; [done|]. eapply step_Set. exact HSet.
Qed.

Lemma items_list_to_map c :
  wf c -> items c = list_to_map (index_of (list_ c)).
Proof.
  intros Hwf. apply map_eq. intros k. apply option_eq. intros p.
  pose proof Hwf as (_ & Hk & Hit & _). rewrite Hit.
  apply elem_of_list_to_map. by rewrite index_keys.
Qed.

(** A [Get] of a key that is in the index. *)
Lemma Get_hit_entries ctx k c :
  wf c -> k ∈ keys_of c ->
  exists v c', (k, v) ∈ entries_of c /\
    Get ctx k c = (inl (NopCloser v), c') /\
    storage c' = storage c /\
    entries_of c' = (k, v) :: filter (fun kv => kv.1 <> k) (entries_of c).
Proof.
  intros Hwf Hin. destruct (items c !! k) as [p|] eqn:Hit.
  2: { by apply (wf_lookup c k Hwf) in Hit. }
  destruct (wf_lookup_Some _ _ _ Hwf Hit) as (e & Hine & Hke & Hpe & Hfind).
  exists (value (Value e)), (with_list c (e :: Remove p (list_ c))). split_and!.
  - rewrite <- Hke. unfold entries_of.
    by apply (list_elem_of_fmap_2 (fun e => (key (Value e), value (Value e)))).
  - unfold Get. rewrite Hit. unfold MoveToFront. rewrite Hfind. cbn [find_elem].
    by rewrite decide_True.
  - done.
  - unfold entries_of at 1. cbn [with_list list_]. rewrite fmap_cons.
    by rewrite <- Hpe, (Remove_entries c e Hwf Hine), Hke.
Qed.

(** After a [Get] that returned bytes, in a cache of positive capacity, the
    key is at the front of the index. *)
Lemma Get_ok_head ctx k c rd c' :
  wf c -> 0 < capacity c -> Len (list_ c) <= capacity c ->
  Get ctx k c = (inl rd, c') ->
  exists v rest, entries_of c' = (k, v) :: rest.
Proof.
  intros Hwf Hcap Hlen HGet. destruct (decide (k ∈ keys_of c)) as [Hin|Hnot].
  - destruct (Get_hit_entries ctx k c Hwf Hin) as (v & c1 & _ & HGet' & _ & Hent).
    rewrite HGet' in HGet. injection HGet as _ <-. eauto.
  - apply (wf_lookup c k Hwf) in Hnot.
    destruct (Storage_Get ctx k (storage c)) as [[data|err] s] eqn:Hst.
    2: { unfold Get in HGet. by rewrite Hnot, Hst in HGet. }
    destruct (ReadAll data) as [v [err|]] eqn:Hread.
    { unfold Get in HGet. by rewrite Hnot, Hst, Hread in HGet. }
    destruct (Get_miss_entries ctx k c data s v _ c' Hwf Hcap Hlen Hnot Hst Hread HGet)
      as (_ & Hent & _).
    destruct (Z.to_nat (capacity c)) as [|n] eqn:Hn; [lia|]. cbn [take] in Hent. eauto.
Qed.

(** The index after a [Set] of a key that is in it. *)
Lemma Set_hit_entries c k p v :
  wf c -> items c !! k = Some p ->
  entries_of (with_list c (set_value p v (MoveToFront p (list_ c)))) =
    (k, v) :: filter (fun kv => kv.1 <> k) (entries_of c).
Proof.
  intros Hwf Hit.
  destruct (wf_lookup_Some _ _ _ Hwf Hit) as (e & Hin & Hke & Hpe & Hfind).
  unfold MoveToFront. rewrite Hfind. cbn [set_value]. rewrite decide_True by done.
  unfold entries_of at 1. cbn [with_list list_]. rewrite fmap_cons.
  cbn [Value key value ptr]. by rewrite <- Hpe, (Remove_entries c e Hwf Hin), Hke.
Qed.

End Entries.

(** ** Properties of the cache over any store *)

(** X1: in every state a cache goes through, the map and the list agree: no
    key is twice in the list, the keys of the map are the keys of the list,
    and the map has as many keys as the list has elements. *)
Theorem index_consistent {S} `{Storage S} (cap : Z) (s0 : S) (c : LRUCache.t S) :
  reachable cap s0 c ->
  NoDup (keys_of c) /\
  (forall k, is_Some (items c !! k) <-> k ∈ keys_of c) /\
  size (items c) = length (list_ c).
Proof.
  intros Hreach. pose proof (reachable_wf _ _ _ Hreach) as Hwf.
  split_and!; [apply Hwf | |].
  - intros k. rewrite <- not_eq_None_Some, (wf_lookup c k Hwf).
    destruct (decide (k ∈ keys_of c)); tauto.
  - rewrite (items_list_to_map c Hwf), map_size_list_to_map.
    + unfold index_of. by rewrite length_fmap.
    + rewrite index_keys. apply Hwf.
Qed.

Lemma index_consistent_witness :
  exists c, run_sets [call1; call2; call3] (NewLRUCache 2 MemoryStorage.New) c /\
    NoDup (keys_of c) /\ size (items c) = length (list_ c).
Proof.
  eexists. split.
  { do 3 (eapply (run_cons 1); [vm_compute; reflexivity|]). apply run_nil. }
  match goal with |- NoDup (keys_of ?c) /\ _ =>
    destruct (index_consistent 2 MemoryStorage.New c) as (Hnd & _ & Hsize)
  end.
  - eapply (run_sets_reachable 2 MemoryStorage.New [call1; call2; call3]);
      [apply reach_new|].
    do 3 (eapply (run_cons 1); [vm_compute; reflexivity|]). apply run_nil.
  - split; [exact Hnd | exact Hsize].
Defined.

(** X2: in a cache of positive capacity, a [Set] that returns nil puts the
    entry at the front of the index, drops the older entry of the key if
    there was one, and keeps of the rest what the capacity leaves room for,
    in the order it was in. *)
Theorem Set_entries {S} `{Storage S} (cap : Z) (s0 : S) (fuel : nat) (ctx : Context)
    (k : string) (v : bytes) (c c' : LRUCache.t S) :
  0 < cap ->
  reachable cap s0 c ->
  Set_ fuel ctx k v c = Some (None, c') ->
  entries_of c' =
    take (Z.to_nat cap) ((k, v) :: filter (fun kv => kv.1 <> k) (entries_of c)).
Proof.
  intros Hcap Hreach HSet.
  destruct (reachable_bound _ _ _ Hreach) as [Hc Hlen]. subst cap.
  apply (Set_nil_entries fuel ctx); [by eapply reachable_wf | done | lia | done].
Qed.

(** Capacity 2 with "key1" and "key2" cached: setting "key1" again moves it
    to the front with its new bytes, and evicts nothing. *)
Lemma Set_entries_witness :
  exists c c', run_sets [call1; call2] (NewLRUCache 2 MemoryStorage.New) c /\
    Set_ 0 Background "key1" (bytes_of "new") c = Some (None, c') /\
    entries_of c' = [("key1", bytes_of "new"); ("key2", bytes_of "value2")].
Proof.
  eexists. eexists. split.
  { do 2 (eapply (run_cons 1); [vm_compute; reflexivity|]). apply run_nil. }
  match goal with |- Set_ _ _ _ _ ?c = _ /\ _ =>
    assert (reachable 2 MemoryStorage.New c) as Hreach
  end.
  { eapply (run_sets_reachable 2 MemoryStorage.New [call1; call2]);
      [apply reach_new|].
    do 2 (eapply (run_cons 1); [vm_compute; reflexivity|]). apply run_nil. }
  split; [vm_compute; reflexivity|].
  rewrite (Set_entries 2 MemoryStorage.New 0 Background "key1" (bytes_of "new")
             _ _ ltac:(lia) Hreach ltac:(vm_compute; reflexivity)).
  by vm_compute.
Defined.

(** X3: in a cache of positive capacity, after a [Set] that returned nil a
    [Get] of the same key returns the bytes that were set, under any context,
    and leaves the cache, the store with it, exactly as it was. *)
Theorem Set_then_Get {S} `{Storage S} (cap : Z) (s0 : S) (fuel : nat)
    (ctx ctx' : Context) (k : string) (v : bytes) (c c' : LRUCache.t S) :
  0 < cap ->
  reachable cap s0 c ->
  Set_ fuel ctx k v c = Some (None, c') ->
  Get ctx' k c' = (inl (NopCloser v), c').
Proof.
  intros Hcap Hreach HSet.
  destruct (reachable_bound _ _ _ Hreach) as [Hc Hlen]. subst cap.
  pose proof (reachable_wf _ _ _ Hreach) as Hwf.
  pose proof (Set_nil_entries fuel ctx k v c c' Hwf Hcap ltac:(lia) HSet) as Hent.
  destruct (Z.to_nat (capacity c)) as [|n] eqn:Hn; [lia|]. cbn [take] in Hent.
  eapply (Get_head ctx' c' k v); [|exact Hent].
  by apply (Set_keeps _ _ _ _ _ _ _ HSet).
Qed.

Lemma Set_then_Get_witness :
  exists c', Set_ 0 Background "key1" (bytes_of "value1")
               (NewLRUCache 2 MemoryStorage.New) = Some (None, c') /\
    Get Cancelled "key1" c' = (inl (NopCloser (bytes_of "value1")), c').
Proof.
  eexists. split; [vm_compute; reflexivity|].
  apply (Set_then_Get 2 MemoryStorage.New 0 Background Cancelled "key1"
           (bytes_of "value1") (NewLRUCache 2 MemoryStorage.New)).
  - lia.
  - apply reach_new.
  - vm_compute. reflexivity.
Defined.



(** X5: [Delete] takes the entry of the key out of the index, the other
    entries staying in their order, and always asks the store to delete the
    key, in the index or not; what the store answers is what [Delete]
    returns (the entry has left the index also when the store fails). *)
Theorem Delete_entries {S} `{Storage S} (cap : Z) (s0 : S) (ctx : Context)
    (k : string) (c c' : LRUCache.t S) (r : option error) :
  reachable cap s0 c ->
  Delete ctx k c = (r, c') ->
  entries_of c' = filter (fun kv => kv.1 <> k) (entries_of c) /\
  (k ∉ keys_of c') /\
  Storage_Delete ctx k (storage c) = (r, storage c').
Proof.
  intros Hreach HDel. pose proof (reachable_wf _ _ _ Hreach) as Hwf.
  destruct (Delete_entries_wf ctx k c r c' Hwf HDel) as (Hent & Hit & Hst).
  split_and!; [done | | done].
  apply (wf_lookup c' k); [|done]. by apply (Delete_keeps _ _ _ _ _ HDel).
Qed.

(** With "key1" and "key2" cached, [Delete "key1"] under a cancelled context:
    the memory store refuses, the entry has left the index all the same. *)
Lemma Delete_entries_witness :
  exists c c', run_sets [call1; call2] (NewLRUCache 2 MemoryStorage.New) c /\
    Delete Cancelled "key1" c = (Some Canceled, c') /\
    entries_of c' = [("key2", bytes_of "value2")] /\
    storage c' = storage c.
Proof.
  eexists. eexists. split.
  { do 2 (eapply (run_cons 1); [vm_compute; reflexivity|]). apply run_nil. }
  match goal with |- Delete _ _ ?c = _ /\ _ =>
    assert (reachable 2 MemoryStorage.New c) as Hreach
  end.
  { eapply (run_sets_reachable 2 MemoryStorage.New [call1; call2]);
      [apply reach_new|].
    do 2 (eapply (run_cons 1); [vm_compute; reflexivity|]). apply run_nil. }
  split; [vm_compute; reflexivity|].
  destruct (Delete_entries 2 MemoryStorage.New Cancelled "key1" _ _ _
              Hreach ltac:(vm_compute; reflexivity)) as (Hent & _ & _).
  split; [|reflexivity]. rewrite Hent. by vm_compute.
Defined.

(** X6: with a capacity of at least 2, a key that a [Get] has just returned
    bytes for is still in the index after the next [Set] of another key: the
    [Set] evicts an older one. *)
Theorem Get_then_Set_keeps {S} `{Storage S} (cap : Z) (s0 : S) (fuel : nat)
    (ctx ctx' : Context) (k k' : string) (v : bytes) (rd : ReadCloser)
    (c c1 c2 : LRUCache.t S) :
  2 <= cap ->
  reachable cap s0 c ->
  Get ctx k c = (inl rd, c1) ->
  k' <> k ->
  Set_ fuel ctx' k' v c1 = Some (None, c2) ->
  k ∈ keys_of c2.
Proof.
  intros Hcap Hreach HGet Hne HSet.
  assert (reachable cap s0 c1) as Hreach1 by eauto using reachable, step.
  destruct (reachable_bound _ _ _ Hreach) as [Hc Hlen].
  destruct (reachable_bound _ _ _ Hreach1) as [Hc1 Hlen1]. subst cap.
  pose proof (reachable_wf _ _ _ Hreach) as Hwf.
  pose proof (reachable_wf _ _ _ Hreach1) as Hwf1.
  destruct (Get_ok_head ctx k c rd c1 Hwf ltac:(lia) ltac:(lia) HGet)
    as (v0 & rest & Hent1).
  pose proof (Set_nil_entries fuel ctx' k' v c1 c2 Hwf1 ltac:(lia) ltac:(lia) HSet)
    as Hent2.
  rewrite Hent1, filter_cons_True in Hent2 by (simpl; congruence).
  rewrite <- entries_keys, Hent2.
  destruct (Z.to_nat (capacity c1)) as [|[|n]] eqn:Hn; [lia | lia |].
  cbn [take fmap list_fmap fst]. right. left.
Qed.

(** The recency test: "key1", "key2", then [Get "key1"], then "key3". *)
Lemma Get_then_Set_keeps_witness :
  exists c rd c1 c2, run_sets [call1; call2] (NewLRUCache 2 MemoryStorage.New) c /\
    Get Background "key1" c = (inl rd, c1) /\
    Set_ 1 Background "key3" (bytes_of "value3") c1 = Some (None, c2) /\
    "key1" ∈ keys_of c2 /\ keys_of c2 = ["key3"; "key1"].
Proof.
  eexists. eexists. eexists. eexists. split.
  { do 2 (eapply (run_cons 1); [vm_compute; reflexivity|]). apply run_nil. }
  match goal with |- Get _ _ ?c = _ /\ _ =>
    assert (reachable 2 MemoryStorage.New c) as Hreach
  end.
  { eapply (run_sets_reachable 2 MemoryStorage.New [call1; call2]);
      [apply reach_new|].
    do 2 (eapply (run_cons 1); [vm_compute; reflexivity|]). apply run_nil. }
  split; [vm_compute; reflexivity|]. split; [vm_compute; reflexivity|].
  split; [|by vm_compute].
  apply (Get_then_Set_keeps 2 MemoryStorage.New 1 Background Background
           "key1" "key3" (bytes_of "value3") _ _ _ _
           ltac:(lia) Hreach ltac:(vm_compute; reflexivity) ltac:(done)
           ltac:(vm_compute; reflexivity)).
Defined.

(** ** The cache over the memory store *)

Section CacheMemory.
Implicit Types (c : LRUCache.t MemoryStorage.t) (s : MemoryStorage.t).

Lemma MemoryStorage_Set_other ctx k v s k' :
  k' <> k ->
  MemoryStorage.data (MemoryStorage.Set_ ctx k v s).2 !! k' = MemoryStorage.data s !! k'.
Proof.
  intros Hne. unfold MemoryStorage.Set_. destruct (Err ctx); [done|].
  cbn. by rewrite lookup_insert_ne.
Qed.

Lemma MemoryStorage_Delete_other ctx k s k' :
  k' <> k ->
  MemoryStorage.data (MemoryStorage.Delete ctx k s).2 !! k' = MemoryStorage.data s !! k'.
Proof.
  intros Hne. unfold MemoryStorage.Delete. destruct (Err ctx); [done|].
  cbn. by rewrite lookup_delete_ne.
Qed.

Lemma entries_filter_elem (k k' : string) (v' : bytes) (es : list (string * bytes)) :
  (k', v') ∈ filter (fun kv => kv.1 <> k) es -> k' <> k /\ (k', v') ∈ es.
Proof. by intros ?%list_elem_of_filter. Qed.

Lemma coherent_removeOldest ctx c :
  wf c -> coherent c -> coherent (removeOldest ctx c).2.
Proof.
  intros Hwf Hco. destruct (last (list_ c)) as [e|] eqn:Hlast.
  2: { apply last_None in Hlast. by rewrite removeOldest_empty. }
  rewrite (removeOldest_back _ _ _ Hlast). cbn [snd].
  intros k v Hin. unfold entries_of, evicted in Hin. cbn [list_] in Hin.
  rewrite (Remove_entries c e Hwf (last_Some_elem_of _ _ Hlast)) in Hin.
  apply entries_filter_elem in Hin as [Hne Hin].
  cbn [evicted storage Storage_Delete MemoryStorage_Storage].
  rewrite MemoryStorage_Delete_other by done. by apply Hco.
Qed.

Lemma coherent_evict fuel ctx c r c' :
  wf c -> coherent c -> evict fuel ctx c = Some (r, c') -> coherent c'.
Proof.
  revert c. induction fuel as [|fuel IH]; intros c Hwf Hco; cbn [evict];
    destruct (decide (Len (list_ c) > capacity c)); try done;
    try (by intros [= _ <-]).
  pose proof (wf_removeOldest ctx c Hwf) as Hwf1.
  pose proof (coherent_removeOldest ctx c Hwf Hco) as Hco1.
  destruct (removeOldest ctx c) as [[err|] c1]; simpl in *.
  - by intros [= _ <-].
  - by apply IH.
Qed.

Lemma coherent_push c s k v :
  wf c -> coherent c -> k ∉ keys_of c ->
  (forall k', k' <> k -> MemoryStorage.data s !! k' = MemoryStorage.data (storage c) !! k') ->
  MemoryStorage.data s !! k = Some v ->
  coherent (push (with_storage c s) {| key := k; value := v |}).
Proof.
  intros Hwf Hco Hk Hother Hnew k' v' Hin.
  change (entries_of (push (with_storage c s) {| key := k; value := v |}))
    with ((k, v) :: entries_of c) in Hin.
  cbn [push PushFront with_storage storage].
  apply elem_of_cons in Hin as [[= -> ->]|Hin]; [done|].
  rewrite Hother; [by apply Hco|]. intros ->. apply Hk.
  rewrite <- entries_keys. by apply (list_elem_of_fmap_2 fst) in Hin.
Qed.

Lemma coherent_Get ctx k c r c' :
  wf c -> coherent c -> Get ctx k c = (r, c') -> coherent c'.
Proof.
  intros Hwf Hco HGet. destruct (decide (k ∈ keys_of c)) as [Hin|Hnot].
  - destruct (Get_hit_entries ctx k c Hwf Hin) as (v & c1 & Hv & HGet' & Hst & Hent).
    rewrite HGet' in HGet. injection HGet as _ <-.
    intros k' v' Hin'. rewrite Hst. rewrite Hent in Hin'.
    apply elem_of_cons in Hin' as [[= -> ->]|Hin']; [by apply Hco|].
    apply entries_filter_elem in Hin' as [_ Hin']. by apply Hco.
  - pose proof Hnot as Hit. apply (wf_lookup c k Hwf) in Hit.
    revert HGet. unfold Get. rewrite Hit.
    cbn [Storage_Get MemoryStorage_Storage]. unfold MemoryStorage.Get.
    destruct (Err ctx) as [err|]; [by intros [= _ <-]|].
    destruct (MemoryStorage.data (storage c) !! k) as [d|] eqn:Hd;
      [|by intros [= _ <-]].
    cbn [ReadAll NopCloser rc_data rc_err].
    set (c1 := push (with_storage c (storage c)) {| key := k; value := d |}).
    assert (coherent c1) as Hco1 by (by apply coherent_push).
    assert (wf c1) as Hwf1 by (by apply wf_push; [apply wf_with_storage|]).
    destruct (decide (Len (list_ c1) > capacity c1)); [|by intros [= _ <-]].
    pose proof (coherent_removeOldest ctx c1 Hwf1 Hco1) as Hco2.
    destruct (removeOldest ctx c1) as [[err|] c2]; simpl in *; by intros [= _ <-].
Qed.

Lemma coherent_Set fuel ctx k v c r c' :
  wf c -> coherent c -> Set_ fuel ctx k v c = Some (r, c') -> coherent c'.
Proof.
  intros Hwf Hco. unfold Set_.
  pose proof (MemoryStorage_Set_other ctx k v (storage c)) as Hother.
  cbn [Storage_Set MemoryStorage_Storage].
  destruct (MemoryStorage.Set_ ctx k v (storage c)) as [[err|] s1] eqn:HSet.
  { unfold MemoryStorage.Set_ in HSet. destruct (Err ctx); [|done].
    injection HSet as _ <-. by intros [= _ <-]. }
  assert (MemoryStorage.data s1 !! k = Some v) as Hnew.
  { unfold MemoryStorage.Set_ in HSet. destruct (Err ctx); [done|].
    injection HSet as <-. cbn. apply lookup_insert_eq. }
  cbn [snd] in Hother. cbn [with_storage items].
  destruct (items c !! k) as [p|] eqn:Hit.
  - intros [= _ <-]. intros k' v' Hin. cbn [with_list with_storage storage].
    change (entries_of (with_list (with_storage c s1) ?l))
      with (entries_of (with_list c l)) in Hin.
    cbn [with_storage list_] in Hin.
    rewrite (Set_hit_entries c k p v Hwf Hit) in Hin.
    apply elem_of_cons in Hin as [[= -> ->]|Hin]; [done|].
    apply entries_filter_elem in Hin as [Hne Hin]. rewrite Hother by done.
    by apply Hco.
  - intros Hev. apply (wf_lookup c k Hwf) in Hit.
    eapply coherent_evict; [| |exact Hev].
    + by apply wf_push; [apply wf_with_storage | apply (wf_lookup c k Hwf)].
    + by apply coherent_push.
Qed.

Lemma coherent_Delete ctx k c r c' :
  wf c -> coherent c -> Delete ctx k c = (r, c') -> coherent c'.
Proof.
  intros Hwf Hco HDel.
  destruct (Delete_entries_wf ctx k c r c' Hwf HDel) as (Hent & _ & Hst).
  intros k' v' Hin. rewrite Hent in Hin.
  apply entries_filter_elem in Hin as [Hne Hin].
  cbn [Storage_Delete MemoryStorage_Storage] in Hst.
  replace (storage c') with (MemoryStorage.Delete ctx k (storage c)).2
    by (by rewrite Hst).
  rewrite MemoryStorage_Delete_other by done. by apply Hco.
Qed.

Lemma reachable_coherent cap s0 c : reachable cap s0 c -> coherent c.
Proof.
  induction 1 as [|c o c' Hreach IH Hstep]; [by intros k v ?%elem_of_nil|].
  pose proof (reachable_wf _ _ _ Hreach) as Hwf.
  destruct Hstep; eauto using coherent_Get, coherent_Set, coherent_Delete.
Qed.

(** With a negative capacity and a live context the loop goes on for ever
    over the memory store. *)
Lemma evict_negative_memory fuel ctx c :
  capacity c < 0 -> Err ctx = None -> evict fuel ctx c = None.
Proof.
  intros Hneg Hctx. revert c Hneg.
  induction fuel as [|fuel IH]; intros c Hneg; cbn [evict];
    (rewrite decide_True by (unfold Len; lia)); [done|].
  destruct (last (list_ c)) as [e|] eqn:Hlast.
  - rewrite (removeOldest_back _ _ _ Hlast).
    cbn [Storage_Delete MemoryStorage_Storage]. unfold MemoryStorage.Delete.
    rewrite Hctx. cbn [fst snd fmap option_fmap option_map]. by apply IH.
  - apply last_None in Hlast. rewrite (removeOldest_empty _ _ Hlast). by apply IH.
Qed.

(** With a capacity of 0 or less the index of a cache is empty. *)
Lemma reachable_empty cap s0 c :
  cap <= 0 -> reachable cap s0 c -> list_ c = [] /\ forall k, items c !! k = None.
Proof.
  intros Hcap Hreach. destruct (reachable_bound _ _ _ Hreach) as [_ Hlen].
  assert (list_ c = []) as Hnil.
  { unfold Len in Hlen. destruct (list_ c); [done | simpl in Hlen; lia]. }
  split; [done|]. intros k. apply (wf_lookup c k (reachable_wf _ _ _ Hreach)).
  unfold keys_of. rewrite Hnil. apply not_elem_of_nil.
Qed.

End CacheMemory.

(** X7: over the memory store, in every state a cache goes through, whatever
    the capacity and the contexts of the calls, every entry of the index is
    in the store with the same bytes: the cache never holds bytes the store
    does not have. *)
Theorem cache_entries_in_store (cap : Z) (s0 : MemoryStorage.t)
    (c : LRUCache.t MemoryStorage.t) (e : Element) :
  reachable cap s0 c ->
  e ∈ list_ c ->
  MemoryStorage.data (storage c) !! key (Value e) = Some (value (Value e)).
Proof.
  intros Hreach Hin. apply (reachable_coherent _ _ _ Hreach).
  unfold entries_of.
  by apply (list_elem_of_fmap_2 (fun e => (key (Value e), value (Value e)))).
Qed.

Lemma cache_entries_in_store_witness :
  exists c, run_sets [call1; call2; call3] (NewLRUCache 2 MemoryStorage.New) c /\
    MemoryStorage.data (storage c) !! "key3" = Some (bytes_of "value3").
Proof.
  eexists. split.
  { do 3 (eapply (run_cons 1); [vm_compute; reflexivity|]). apply run_nil. }
  match goal with |- MemoryStorage.data (storage ?c) !! _ = _ =>
    apply (cache_entries_in_store 2 MemoryStorage.New c
             {| ptr := 2; Value := {| key := "key3"; value := bytes_of "value3" |} |})
  end.
  - eapply (run_sets_reachable 2 MemoryStorage.New [call1; call2; call3]);
      [apply reach_new|].
    do 3 (eapply (run_cons 1); [vm_compute; reflexivity|]). apply run_nil.
  - left.
Defined.

(** X8: over the memory store and under a live context, [Get] through the
    cache returns what [Get] on the store would return at that moment: the
    bytes the store has for the key, or its not-found error. *)
Theorem Get_as_store (cap : Z) (s0 : MemoryStorage.t) (ctx : Context) (k : string)
    (c : LRUCache.t MemoryStorage.t) :
  reachable cap s0 c ->
  Err ctx = None ->
  (Get ctx k c).1 = (MemoryStorage.Get ctx k (storage c)).1.
Proof.
  intros Hreach Hctx. pose proof (reachable_wf _ _ _ Hreach) as Hwf.
  pose proof (reachable_coherent _ _ _ Hreach) as Hco.
  destruct (decide (k ∈ keys_of c)) as [Hin|Hnot].
  - destruct (Get_hit_entries ctx k c Hwf Hin) as (v & c1 & Hv & HGet & _).
    rewrite HGet. unfold MemoryStorage.Get. by rewrite Hctx, (Hco k v Hv).
  - apply (wf_lookup c k Hwf) in Hnot. unfold Get. rewrite Hnot.
    cbn [Storage_Get MemoryStorage_Storage]. unfold MemoryStorage.Get. rewrite Hctx.
    destruct (MemoryStorage.data (storage c) !! k) as [d|]; [|done].
    cbn [ReadAll NopCloser rc_data rc_err fst].
    match goal with |- context [decide ?P] => destruct (decide P) as [Hgt|Hle] end;
      [|done].
    match goal with |- context [removeOldest ctx ?c1] =>
      destruct (last (list_ c1)) as [e|] eqn:Hlast;
      [rewrite (removeOldest_back _ _ _ Hlast)
      |apply last_None in Hlast; by rewrite (removeOldest_empty _ _ Hlast)]
    end.
    cbn [Storage_Delete MemoryStorage_Storage]. unfold MemoryStorage.Delete.
    by rewrite Hctx.
Qed.

Lemma Get_as_store_witness :
  exists c, run_sets [call1; call2; call3] (NewLRUCache 2 MemoryStorage.New) c /\
    (Get Background "key3" c).1 = inl (NopCloser (bytes_of "value3")) /\
    (Get Background "key1" c).1 = inr ErrNotExist.
Proof.
  eexists. split.
  { do 3 (eapply (run_cons 1); [vm_compute; reflexivity|]). apply run_nil. }
  match goal with |- (Get _ _ ?c).1 = _ /\ _ =>
    assert (reachable 2 MemoryStorage.New c) as Hreach
  end.
  { eapply (run_sets_reachable 2 MemoryStorage.New [call1; call2; call3]);
      [apply reach_new|].
    do 3 (eapply (run_cons 1); [vm_compute; reflexivity|]). apply run_nil. }
  split.
  - rewrite (Get_as_store 2 MemoryStorage.New Background "key3" _ Hreach eq_refl).
    by vm_compute.
  - rewrite (Get_as_store 2 MemoryStorage.New Background "key1" _ Hreach eq_refl).
    by vm_compute.
Defined.

(** X9: with a capacity of 0 or less, over the memory store and under a live
    context, a [Get] of a key the store has returns its bytes and deletes the
    key from the store: the entry is evicted as soon as it is read through,
    and eviction deletes from the store. *)
Theorem Get_zero_capacity_deletes (cap : Z) (s0 : MemoryStorage.t) (ctx : Context)
    (k : string) (d : bytes) (c : LRUCache.t MemoryStorage.t) :
  cap <= 0 ->
  reachable cap s0 c ->
  Err ctx = None ->
  MemoryStorage.data (storage c) !! k = Some d ->
  (Get ctx k c).1 = inl (NopCloser d) /\
  list_ (Get ctx k c).2 = [] /\
  MemoryStorage.data (storage (Get ctx k c).2) = delete k (MemoryStorage.data (storage c)).
Proof.
  intros Hcap Hreach Hctx Hd.
  destruct (reachable_empty _ _ _ Hcap Hreach) as [Hnil Hit].
  pose proof (reachable_capacity _ _ _ Hreach) as Hc.
  unfold Get. rewrite Hit. cbn [Storage_Get MemoryStorage_Storage].
  unfold MemoryStorage.Get. rewrite Hctx, Hd.
  cbn [ReadAll NopCloser rc_data rc_err].
  rewrite decide_True.
  2: { unfold push, PushFront. cbn [list_ capacity with_storage].
       rewrite Hnil, Hc. unfold Len. simpl. lia. }
  rewrite (removeOldest_back _ _ {| ptr := next c; Value := {| key := k; value := d |} |})
    by (unfold push, PushFront; cbn [list_ with_storage]; by rewrite Hnil).
  cbn [Storage_Delete MemoryStorage_Storage]. unfold MemoryStorage.Delete.
  rewrite Hctx. cbn [fst snd fmap option_fmap option_map].
  split_and!; [done | | done].
  unfold evicted, push, PushFront. cbn [list_ with_storage ptr]. rewrite Hnil.
  cbn [Remove ptr]. by rewrite decide_True.
Qed.

Lemma Get_zero_capacity_deletes_witness :
  (Get Background "key1" (NewLRUCache 0 stored_key1)).1 =
    inl (NopCloser (bytes_of "value1")) /\
  MemoryStorage.data (storage (Get Background "key1" (NewLRUCache 0 stored_key1)).2)
    !! "key1" = None.
Proof.
  destruct (Get_zero_capacity_deletes 0 stored_key1 Background "key1"
              (bytes_of "value1") (NewLRUCache 0 stored_key1)
              ltac:(lia) (reach_new 0 stored_key1) eq_refl ltac:(by vm_compute))
    as (Hr & _ & Hst).
  split; [exact Hr|]. rewrite Hst. apply lookup_delete_eq.
Defined.

(** X10: with a negative capacity, over the memory store and under a live
    context, no [Set] returns: whatever the fuel, the loop that evicts is
    still running when it is used up. *)
Theorem Set_negative_capacity_runs_on (cap : Z) (s0 : MemoryStorage.t) (fuel : nat)
    (ctx : Context) (k : string) (v : bytes) (c : LRUCache.t MemoryStorage.t) :
  cap < 0 ->
  reachable cap s0 c ->
  Err ctx = None ->
  Set_ fuel ctx k v c = None.
Proof.
  intros Hcap Hreach Hctx.
  assert (cap <= 0) as Hle by lia.
  destruct (reachable_empty _ _ _ Hle Hreach) as [_ Hit].
  pose proof (reachable_capacity _ _ _ Hreach) as Hc.
  unfold Set_. cbn [Storage_Set MemoryStorage_Storage]. unfold MemoryStorage.Set_.
  rewrite Hctx. cbn [with_storage items]. rewrite Hit.
  apply evict_negative_memory; [|done]. cbn. lia.
Qed.

Lemma Set_negative_capacity_runs_on_witness :
  Set_ 1000 Background "key1" (bytes_of "value1")
    (NewLRUCache (-1) MemoryStorage.New) = None.
Proof.
  apply (Set_negative_capacity_runs_on (-1) MemoryStorage.New);
    [lia | apply reach_new | reflexivity].
Defined.

(** ** The file store, further *)

Section FileMore.
Import FileStore.

(** *** Sanitized keys have no ".." *)

Lemma replace_dotdot_head (c : ascii) (s : string) :
  exists r, replace_dotdot (String c s) = String "_" r \/
            replace_dotdot (String c s) = String c r.
Proof.
  destruct s as [|c' s]; cbn [replace_dotdot]; [by eauto|].
  destruct (Ascii.eqb c "." && Ascii.eqb c' "."); eauto.
Qed.

Lemma replace_dotdot_cons (c c' : ascii) (s : string) :
  replace_dotdot (String c (String c' s)) =
    if Ascii.eqb c "." && Ascii.eqb c' "."
    then String "_" (String "_" (replace_dotdot s))
    else String c (replace_dotdot (String c' s)).
Proof. done. Qed.

Lemma has_dotdot_replace (s : string) :
  has_dotdot (replace_dotdot s) = false /\
  forall c, has_dotdot (replace_dotdot (String c s)) = false.
Proof.
  induction s as [|c' s IH].
  - split; [done|]. intros c. cbn. by rewrite andb_false_r.
  - destruct IH as [IH0 IH1]. split; [apply IH1|].
    intros c. rewrite replace_dotdot_cons.
    destruct (Ascii.eqb c "." && Ascii.eqb c' ".") eqn:Hcc.
    + cbn [has_dotdot]. change (Ascii.eqb "_" ".") with false. cbn [andb orb].
      exact IH0.
    + cbn [has_dotdot]. rewrite (IH1 c'), orb_false_r.
      destruct (Ascii.eqb c ".") eqn:Hc; [|done]. cbn [andb] in *.
      destruct (replace_dotdot_head c' s) as (r & [-> | ->]); [done|].
      by rewrite Hcc.
Qed.

Lemma has_dotdot_strip (s : string) :
  has_dotdot s = false -> has_dotdot (strip_underscores s) = false.
Proof.
  induction s as [|c s IH]; [done|]. cbn [strip_underscores].
  destruct (Ascii.eqb c "_"); [|done]. cbn [has_dotdot].
  intros [_ Hs]%orb_false_elim. by apply IH.
Qed.

Lemma sanitizeKey_no_dotdot (k : string) : has_dotdot (sanitizeKey k) = false.
Proof.
  rewrite sanitizeKey_described. unfold sanitize_described.
  destruct (decide (k = "")); [done|].
  apply has_dotdot_strip, has_dotdot_replace.
Qed.

Lemma path_of_proper (s : FileStorage.t) (k : string) :
  ~ degenerate k -> path_of s k = FileStorage.baseDir s ++ [sanitizeKey k].
Proof.
  intros Hk. rewrite path_of_cases. unfold filepath.clean_step.
  pose proof (sanitizeKey_no_dotdot k) as Hdd.
  repeat case_decide; try done.
  - destruct Hk. by left.
  - destruct Hk. by right.
  - match goal with Hd : sanitizeKey k = _ |- _ => by rewrite Hd in Hdd end.
Qed.

Lemma path_of_degenerate (s : FileStorage.t) (k : string) :
  degenerate k -> path_of s k = FileStorage.baseDir s.
Proof.
  intros Hk. rewrite path_of_cases. unfold filepath.clean_step.
  destruct Hk as [-> | ->]; done.
Qed.

(** *** The base directory *)

Lemma take_ne_snoc {A} (n : nat) (l : list A) (x : A) : take n l <> l ++ [x].
Proof.
  intros Heq. apply (f_equal length) in Heq.
  rewrite length_take, length_app in Heq. simpl in Heq. lia.
Qed.

Lemma mounted_base (st : FileStorage.state) :
  mounted st ->
  os.is_dir (FileStorage.baseDir st.1) st.2 = true /\
  os.is_file (FileStorage.baseDir st.1) st.2 = false.
Proof.
  intros Hm. specialize (Hm (length (FileStorage.baseDir st.1))).
  simpl in Hm. by rewrite take_ge in Hm.
Qed.

Lemma Dir_path_of (s : FileStorage.t) (k : string) :
  exists n, filepath.Dir (path_of s k) = take n (FileStorage.baseDir s).
Proof.
  rewrite path_of_cases. unfold filepath.clean_step, filepath.Dir.
  repeat case_decide.
  - eexists. apply removelast_take.
  - eexists. apply removelast_take.
  - eexists. by rewrite !removelast_take, take_take.
  - exists (length (FileStorage.baseDir s)). by rewrite removelast_last, take_ge.
Qed.

Lemma mkdir_each_there (ps : list path) (fs : os.FileSys) :
  (forall q, q ∈ ps -> os.is_dir q fs = true /\ os.is_file q fs = false) ->
  os.mkdir_each ps fs = (None, fs).
Proof.
  induction ps as [|q ps IH]; intros Hps; [done|]. cbn [os.mkdir_each].
  destruct (Hps q) as [Hd Hf]; [left|]. rewrite Hf.
  unfold os.is_dir in Hd. apply bool_decide_eq_true in Hd.
  rewrite (subseteq_union_1_L {[q]} (os.dirs fs)) by (by apply singleton_subseteq_l).
  destruct fs as [fl ds]. cbn [os.files os.dirs]. apply IH.
  intros q' Hq'. apply Hps. by right.
Qed.

(** With the base directory there, [MkdirAll] finds every directory it is
    asked for. *)
Lemma MkdirAll_mounted (st : FileStorage.state) (k : string) :
  mounted st -> os.MkdirAll (filepath.Dir (path_of st.1 k)) st.2 = (None, st.2).
Proof.
  intros Hm. unfold os.MkdirAll. apply mkdir_each_there. intros q Hq.
  destruct (Dir_path_of st.1 k) as [m Hdir]. rewrite Hdir in Hq.
  assert (exists n, q = take n (FileStorage.baseDir st.1)) as [n ->].
  { apply elem_of_app in Hq as [Hq|Hq].
    - apply ancestors_take in Hq as [n ->]. rewrite take_take. eauto.
    - apply list_elem_of_singleton in Hq as ->. eauto. }
  apply Hm.
Qed.

(** [Set] on a store whose base directory is there. *)
Lemma Set_on_mounted (ctx : Context) (k : string) (d : bytes)
    (s : FileStorage.t) (fs : os.FileSys) :
  mounted (s, fs) -> Err ctx = None ->
  FileStorage.Set_ ctx k d (s, fs) =
    match os.WriteFile (path_of s k) d fs with
    | (Some err, fs2) => (Some (Errorf_w "failed to write file: " err), (s, fs2))
    | (None, fs2) =>
        if present (path_of s k) fs then (None, (s, fs2))
        else (None, ({| FileStorage.baseDir := FileStorage.baseDir s;
                        FileStorage.size := int_add (FileStorage.size s) 1 |}, fs2))
    end.
Proof.
  intros Hm Hctx. unfold FileStorage.Set_. fold (path_of s k). rewrite Hctx.
  pose proof (MkdirAll_mounted (s, fs) k Hm) as Hmk. cbn [fst snd] in Hmk.
  rewrite Hmk.
  destruct (os.WriteFile (path_of s k) d fs) as [[err|] fs2]; [done|].
  unfold os.Stat. fold (present (path_of s k) fs).
  pose proof (lookup_errno_mounted (s, fs) k Hm) as Herrno. cbn [fst snd] in Herrno.
  rewrite Herrno. by destruct (present (path_of s k) fs).
Qed.

(** [Get] where a missing name is reported as missing. *)
Lemma Get_live (ctx : Context) (k : string) (s : FileStorage.t) (fs : os.FileSys) :
  Err ctx = None -> os.lookup_errno (path_of s k) fs = ENOENT ->
  FileStorage.Get ctx k (s, fs) =
    (match os.files fs !! path_of s k with
     | Some content => inl (NopCloser content)
     | None =>
         if os.is_dir (path_of s k) fs
         then inl {| rc_data := [];
                     rc_err := Some (PathError "read" (path_of s k) EISDIR) |}
         else inr ErrNotExist
     end, (s, fs)).
Proof.
  intros Hctx Herrno. unfold FileStorage.Get. fold (path_of s k). rewrite Hctx.
  unfold os.Open. rewrite Herrno.
  destruct (os.files fs !! path_of s k); [done|].
  by destruct (os.is_dir (path_of s k) fs).
Qed.

(** [Delete] on a store whose base directory is there. *)
Lemma Delete_on_mounted (ctx : Context) (k : string)
    (s : FileStorage.t) (fs : os.FileSys) :
  mounted (s, fs) -> Err ctx = None ->
  FileStorage.Delete ctx k (s, fs) =
    if present (path_of s k) fs then
      match os.Remove (path_of s k) fs with
      | (Some err, fs1) => (Some (Errorf_w "failed to delete file: " err), (s, fs1))
      | (None, fs1) =>
          (None, ({| FileStorage.baseDir := FileStorage.baseDir s;
                     FileStorage.size := int_add (FileStorage.size s) (-1) |}, fs1))
      end
    else (None, (s, fs)).
Proof.
  intros Hm Hctx. unfold FileStorage.Delete. fold (path_of s k). rewrite Hctx.
  unfold os.Stat. fold (present (path_of s k) fs).
  pose proof (lookup_errno_mounted (s, fs) k Hm) as Herrno. cbn [fst snd] in Herrno.
  rewrite Herrno. by destruct (present (path_of s k) fs).
Qed.

(** Where the path of the key is a directory, [Set] fails and changes
    nothing. *)
Lemma Set_dir (ctx : Context) (k : string) (d : bytes)
    (s : FileStorage.t) (fs : os.FileSys) :
  mounted (s, fs) -> Err ctx = None -> os.is_dir (path_of s k) fs = true ->
  FileStorage.Set_ ctx k d (s, fs) =
    (Some (Errorf_w "failed to write file: " (PathError "open" (path_of s k) EISDIR)),
     (s, fs)).
Proof.
  intros Hm Hctx Hdir. rewrite (Set_on_mounted _ _ _ _ _ Hm Hctx).
  unfold os.WriteFile. by rewrite Hdir.
Qed.

(** Where it is not, and the name is a name, [Set] writes the file. *)
Lemma Set_proper (ctx : Context) (k : string) (d : bytes)
    (s : FileStorage.t) (fs : os.FileSys) :
  mounted (s, fs) -> Err ctx = None -> ~ degenerate k ->
  os.is_dir (path_of s k) fs = false ->
  FileStorage.Set_ ctx k d (s, fs) =
    (None,
     ({| FileStorage.baseDir := FileStorage.baseDir s;
         FileStorage.size :=
           if os.is_file (path_of s k) fs then FileStorage.size s
           else int_add (FileStorage.size s) 1 |},
      {| os.files := <[path_of s k := d]> (os.files fs); os.dirs := os.dirs fs |})).
Proof.
  intros Hm Hctx Hk Hdir. rewrite (Set_on_mounted _ _ _ _ _ Hm Hctx).
  unfold os.WriteFile, present. rewrite Hdir, orb_false_r.
  destruct (mounted_base _ Hm) as [Hbase _]. cbn [fst snd] in Hbase.
  replace (filepath.Dir (path_of s k)) with (FileStorage.baseDir s)
    by (rewrite (path_of_proper s k Hk); unfold filepath.Dir;
        by rewrite removelast_last).
  rewrite Hbase, orb_true_r. destruct s as [base sz].
  by destruct (os.is_file _ fs).
Qed.

(** *** The base directory stays *)

Lemma mounted_same (s s' : FileStorage.t) (fs fs' : os.FileSys) :
  FileStorage.baseDir s' = FileStorage.baseDir s ->
  (forall n, let q := take n (FileStorage.baseDir s) in
     os.is_dir q fs' = os.is_dir q fs /\ os.is_file q fs' = os.is_file q fs) ->
  mounted (s, fs) -> mounted (s', fs').
Proof.
  intros Hbase Hsame Hm n. cbn [fst snd]. rewrite Hbase.
  destruct (Hsame n) as [-> ->]. apply Hm.
Qed.

Lemma is_file_insert (p q : path) (d : bytes) (fs : os.FileSys) :
  os.is_file q {| os.files := <[p := d]> (os.files fs); os.dirs := os.dirs fs |} =
    bool_decide (p = q) || os.is_file q fs.
Proof.
  unfold os.is_file. cbn [os.files]. destruct (decide (p = q)) as [->|Hne].
  - rewrite lookup_insert_eq, bool_decide_eq_true_2 by done.
    by rewrite bool_decide_eq_true_2 by eauto.
  - by rewrite lookup_insert_ne, (bool_decide_eq_false_2 (p = q)) by done.
Qed.

Lemma is_file_delete (p q : path) (fs : os.FileSys) :
  os.is_file q {| os.files := delete p (os.files fs); os.dirs := os.dirs fs |} =
    negb (bool_decide (p = q)) && os.is_file q fs.
Proof.
  unfold os.is_file. cbn [os.files]. destruct (decide (p = q)) as [->|Hne].
  - rewrite lookup_delete_eq, (bool_decide_eq_true_2 (q = q)) by done.
    apply bool_decide_eq_false_2. by intros [? ?].
  - by rewrite lookup_delete_ne, (bool_decide_eq_false_2 (p = q)) by done.
Qed.

Lemma is_dir_remove (p q : path) (fs : os.FileSys) :
  os.is_dir q {| os.files := os.files fs; os.dirs := os.dirs fs ∖ {[p]} |} =
    negb (bool_decide (p = q)) && os.is_dir q fs.
Proof.
  unfold os.is_dir. cbn [os.dirs]. destruct (decide (p = q)) as [->|Hne].
  - rewrite (bool_decide_eq_true_2 (q = q)) by done.
    apply bool_decide_eq_false_2. intros [_ Hn]%elem_of_difference.
    apply Hn. by apply elem_of_singleton.
  - rewrite (bool_decide_eq_false_2 (p = q)) by done. cbn [negb andb].
    apply bool_decide_ext. rewrite elem_of_difference, elem_of_singleton.
    split; [by intros []|]. intros Hq. split; [done | congruence].
Qed.

Lemma Set_keeps_mounted (ctx : Context) (k : string) (d : bytes)
    (st : FileStorage.state) :
  mounted st -> mounted (FileStorage.Set_ ctx k d st).2.
Proof.
  destruct st as [s fs]. intros Hm.
  destruct (Err ctx) as [err|] eqn:Hctx.
  { unfold FileStorage.Set_. by rewrite Hctx. }
  rewrite (Set_on_mounted _ _ _ _ _ Hm Hctx). unfold os.WriteFile.
  destruct (os.is_dir (path_of s k) fs) eqn:Hdir; [done|].
  destruct (os.is_file (path_of s k) fs || os.is_dir (filepath.Dir (path_of s k)) fs);
    [|done].
  assert (forall n, path_of s k <> take n (FileStorage.baseDir s)) as Hne.
  { intros n Heq. destruct (Hm n) as [Hd _]. cbn [fst snd] in Hd. congruence. }
  destruct (present (path_of s k) fs); cbn [snd];
    (apply (mounted_same s _ fs); [done| |exact Hm]); intros n q; subst q;
    (split; [done|]); rewrite is_file_insert;
    by rewrite (bool_decide_eq_false_2 _ (Hne n)).
Qed.

(** *** The entries of the base directory *)

Lemma elem_of_children (q p : path) (fs : os.FileSys) :
  q ∈ children p fs <->
  (q <> [] /\ filepath.Dir q = p) /\ (os.is_file q fs = true \/ os.is_dir q fs = true).
Proof.
  unfold children, os.is_file, os.is_dir.
  rewrite elem_of_filter, elem_of_union, elem_of_dom.
  by rewrite !bool_decide_eq_true.
Qed.

Lemma child_of_base (s : FileStorage.t) (k : string) (fs : os.FileSys) :
  ~ degenerate k ->
  path_of s k ∈ children (FileStorage.baseDir s) fs <-> present (path_of s k) fs = true.
Proof.
  intros Hk. rewrite elem_of_children. unfold present. rewrite orb_true_iff.
  rewrite (path_of_proper s k Hk). unfold filepath.Dir. rewrite removelast_last.
  split; [by intros [_ ?]|]. intros Hp. split; [|done]. split; [|done].
  by destruct (FileStorage.baseDir s).
Qed.

Lemma wrap_add (x y : Z) : int_add (wrap x) y = wrap (x + y).
Proof.
  unfold int_add, wrap. f_equal.
  replace ((x + 2 ^ 63) mod 2 ^ 64 - 2 ^ 63 + y + 2 ^ 63)
    with ((x + 2 ^ 63) mod 2 ^ 64 + y) by lia.
  rewrite Zplus_mod_idemp_l. f_equal. lia.
Qed.

Lemma children_insert (p q : path) (d : bytes) (fs : os.FileSys) :
  q <> [] -> filepath.Dir q = p ->
  children p {| os.files := <[q := d]> (os.files fs); os.dirs := os.dirs fs |} =
    {[q]} ∪ children p fs.
Proof.
  intros Hq Hdir. apply set_eq. intros x.
  rewrite elem_of_union, elem_of_singleton, !elem_of_children, is_file_insert.
  unfold os.is_dir. cbn [os.dirs]. rewrite orb_true_iff, bool_decide_eq_true.
  split.
  - intros [Hx [[->|?]|?]]; eauto.
  - intros [->|[Hx [?|?]]]; eauto.
Qed.

Lemma children_delete (p q : path) (fs : os.FileSys) :
  os.is_dir q fs = false ->
  children p {| os.files := delete q (os.files fs); os.dirs := os.dirs fs |} =
    children p fs ∖ {[q]}.
Proof.
  intros Hdir. apply set_eq. intros x.
  rewrite elem_of_difference, elem_of_singleton, !elem_of_children, is_file_delete.
  unfold os.is_dir at 1. cbn [os.dirs]. fold (os.is_dir x fs).
  rewrite andb_true_iff, negb_true_iff, bool_decide_eq_false.
  split.
  - intros [Hx [[Hne ?]|Hd]]; [by eauto|].
    split; [by eauto|]. intros ->. congruence.
  - intros [[Hx [?|?]] Hne]; split; eauto.
Qed.

Lemma children_rmdir (p q : path) (fs : os.FileSys) :
  os.is_file q fs = false ->
  children p {| os.files := os.files fs; os.dirs := os.dirs fs ∖ {[q]} |} =
    children p fs ∖ {[q]}.
Proof.
  intros Hfile. apply set_eq. intros x.
  rewrite elem_of_difference, elem_of_singleton, !elem_of_children, is_dir_remove.
  unfold os.is_file at 1. cbn [os.files]. fold (os.is_file x fs).
  rewrite andb_true_iff, negb_true_iff, bool_decide_eq_false.
  split.
  - intros [Hx [Hf|[Hne ?]]]; [|by eauto].
    split; [by eauto|]. intros ->. congruence.
  - intros [[Hx [?|?]] Hne]; split; eauto.
Qed.

Lemma size_add_one (X : gset path) (q : path) :
  q ∉ X -> Z.of_nat (size ({[q]} ∪ X)) = Z.of_nat (size X) + 1.
Proof.
  intros Hq. rewrite size_union by (by apply disjoint_singleton_l).
  rewrite size_singleton. lia.
Qed.

Lemma size_remove_one (X : gset path) (q : path) :
  q ∈ X -> Z.of_nat (size (X ∖ {[q]})) = Z.of_nat (size X) + -1.
Proof.
  intros Hq. rewrite size_difference by (by apply singleton_subseteq_l).
  rewrite size_singleton.
  assert (size X <> 0)%nat as Hpos.
  { intros Hn%size_empty_inv. apply (Hn q) in Hq. by apply elem_of_empty in Hq. }
  lia.
Qed.

(** *** The count is the number of entries *)

Lemma Get_state (ctx : Context) (k : string) (st : FileStorage.state) :
  (FileStorage.Get ctx k st).2 = st.
Proof.
  destruct st as [s fs]. unfold FileStorage.Get.
  destruct (Err ctx); [done|]. destruct (os.Open _ fs) as [?|err]; [done|].
  by destruct (IsNotExist (Some err)).
Qed.

Lemma proper_not_dir (k : string) (s : FileStorage.t) (fs : os.FileSys) :
  mounted (s, fs) -> os.is_dir (path_of s k) fs = false -> ~ degenerate k.
Proof.
  intros Hm Hdir Hk. rewrite (path_of_degenerate s k Hk) in Hdir.
  destruct (mounted_base _ Hm) as [Hbase _]. cbn [fst snd] in Hbase. congruence.
Qed.

Lemma path_of_child (s : FileStorage.t) (k : string) :
  ~ degenerate k ->
  path_of s k <> [] /\ filepath.Dir (path_of s k) = FileStorage.baseDir s.
Proof.
  intros Hk. rewrite (path_of_proper s k Hk). unfold filepath.Dir.
  rewrite removelast_last. split; [|done]. by destruct (FileStorage.baseDir s).
Qed.

Lemma counted_Set (ctx : Context) (k : string) (d : bytes) (st : FileStorage.state) :
  counted st -> counted (FileStorage.Set_ ctx k d st).2.
Proof.
  destruct st as [s fs]. intros (Hm & Hok & Hsz). cbn [fst snd] in Hok, Hsz.
  destruct (Err ctx) as [err|] eqn:Hctx.
  { unfold FileStorage.Set_. by rewrite Hctx. }
  destruct (os.is_dir (path_of s k) fs) eqn:Hdir.
  { by rewrite (Set_dir _ _ _ _ _ Hm Hctx Hdir). }
  pose proof (proper_not_dir k s fs Hm Hdir) as Hk.
  pose proof (Set_keeps_mounted ctx k d (s, fs) Hm) as Hm'.
  rewrite (Set_proper _ _ _ _ _ Hm Hctx Hk Hdir) in *. cbn [snd] in *.
  destruct (path_of_child s k Hk) as [Hne Hbase].
  split; [exact Hm'|]. split; cbn [fst snd FileStorage.baseDir FileStorage.size].
  - intros q. rewrite is_file_insert. unfold os.is_dir at 1. cbn [os.dirs].
    fold (os.is_dir q fs). intros [Heq|Hq]%orb_true_iff; [|by apply Hok].
    apply bool_decide_eq_true in Heq as <-. exact Hdir.
  - rewrite (children_insert _ _ _ _ Hne Hbase).
    pose proof (child_of_base s k fs Hk) as Hchild. unfold present in Hchild.
    rewrite Hdir, orb_false_r in Hchild.
    destruct (os.is_file (path_of s k) fs) eqn:Hfile.
    + rewrite subseteq_union_1_L; [done|].
      apply singleton_subseteq_l. by apply Hchild.
    + rewrite size_add_one, Hsz; [apply wrap_add|].
      intros Hin. apply Hchild in Hin. done.
Qed.

Lemma counted_Delete (ctx : Context) (k : string) (st : FileStorage.state) :
  counted st -> ~ degenerate k -> counted (FileStorage.Delete ctx k st).2.
Proof.
  destruct st as [s fs]. intros (Hm & Hok & Hsz) Hk. cbn [fst snd] in Hok, Hsz.
  destruct (Err ctx) as [err|] eqn:Hctx.
  { unfold FileStorage.Delete. by rewrite Hctx. }
  rewrite (Delete_on_mounted _ _ _ _ Hm Hctx).
  destruct (present (path_of s k) fs) eqn:Hpres; [|done].
  pose proof (proj2 (child_of_base s k fs Hk) Hpres) as Hchild.
  assert (forall n, path_of s k <> take n (FileStorage.baseDir s)) as Hnot.
  { intros n. rewrite (path_of_proper s k Hk). intros Heq. symmetry in Heq.
    by apply take_ne_snoc in Heq. }
  unfold os.Remove. destruct (os.is_file (path_of s k) fs) eqn:Hfile.
  - pose proof (Hok _ Hfile) as Hdir. cbn [snd]. split_and!.
    + apply (mounted_same s _ fs); [done| |exact Hm]. intros n q; subst q. split; [done|].
      rewrite is_file_delete.
      destruct (Hm n) as [_ Hf]. cbn [fst snd] in Hf. by rewrite Hf, andb_false_r.
    + intros q. cbn [snd]. rewrite is_file_delete.
      intros [_ Hq]%andb_true_iff. by apply Hok.
    + cbn [fst snd FileStorage.baseDir FileStorage.size].
      rewrite (children_delete _ _ _ Hdir), (size_remove_one _ _ Hchild), Hsz.
      apply wrap_add.
  - destruct (os.is_dir (path_of s k) fs) eqn:Hdir;
      [|unfold present in Hpres; by rewrite Hfile, Hdir in Hpres].
    destruct (os.has_children (path_of s k) fs); [done|].
    destruct (decide (path_of s k = [])) as [?|_]; [done|]. cbn [snd]. split_and!.
    + apply (mounted_same s _ fs); [done| |exact Hm]. intros n q; subst q. split; [|done].
      rewrite is_dir_remove. by rewrite (bool_decide_eq_false_2 _ (Hnot n)).
    + intros q. cbn [snd]. rewrite is_dir_remove.
      unfold os.is_file at 1. cbn [os.files]. fold (os.is_file q fs).
      intros Hq. by rewrite (Hok _ Hq), andb_false_r.
    + cbn [fst snd FileStorage.baseDir FileStorage.size].
      rewrite (children_rmdir _ _ _ Hfile), (size_remove_one _ _ Hchild), Hsz.
      apply wrap_add.
Qed.

Lemma counted_apply (o : FileOp) (st : FileStorage.state) :
  counted st -> keeps_base o -> counted (apply_op st o).
Proof.
  intros Hc Ho. destruct o as [ctx k|ctx k d|ctx k]; cbn [apply_op].
  - by rewrite Get_state.
  - by apply counted_Set.
  - by apply counted_Delete.
Qed.

Lemma counted_run (ops : list FileOp) (st : FileStorage.state) :
  counted st -> Forall keeps_base ops -> counted (run_ops ops st).
Proof.
  unfold run_ops. revert st.
  induction ops as [|o ops IH]; intros st Hc Hops; [done|]. cbn [foldl].
  apply Forall_cons in Hops as [Ho Hops]. apply IH; [|done].
  by apply counted_apply.
Qed.

(** *** What [Get] depends on *)

Lemma lookup_errno_no_file (s : FileStorage.t) (k : string) (fs : os.FileSys) :
  (forall n, os.is_file (take n (FileStorage.baseDir s)) fs = false) ->
  os.lookup_errno (path_of s k) fs = ENOENT.
Proof.
  intros Hno. unfold os.lookup_errno.
  destruct (existsb _ _) eqn:Hex; [|done].
  apply existsb_exists in Hex as (q & Hq & Hfile).
  apply list_elem_of_In, path_of_ancestors in Hq as [n ->].
  by rewrite Hno in Hfile.
Qed.

Lemma is_file_lookup (p : path) (fs : os.FileSys) :
  os.is_file p fs = false -> os.files fs !! p = None.
Proof.
  unfold os.is_file. intros Hf%bool_decide_eq_false.
  destruct (os.files fs !! p) eqn:Hp; [|done]. destruct Hf. eauto.
Qed.

Lemma Get_same (ctx : Context) (k : string) (s s' : FileStorage.t)
    (fs fs' : os.FileSys) :
  FileStorage.baseDir s' = FileStorage.baseDir s ->
  os.files fs' !! path_of s k = os.files fs !! path_of s k ->
  os.is_dir (path_of s k) fs' = os.is_dir (path_of s k) fs ->
  os.lookup_errno (path_of s k) fs' = os.lookup_errno (path_of s k) fs ->
  (FileStorage.Get ctx k (s', fs')).1 = (FileStorage.Get ctx k (s, fs)).1.
Proof.
  intros Hbase Hfiles Hdir Herrno. unfold FileStorage.Get.
  fold (path_of s k) (path_of s' k).
  replace (path_of s' k) with (path_of s k) by (unfold path_of; by rewrite Hbase).
  destruct (Err ctx); [done|]. unfold os.Open. rewrite Hfiles, Hdir, Herrno.
  destruct (os.files fs !! path_of s k); [done|].
  destruct (os.is_dir (path_of s k) fs); [done|].
  by destruct (IsNotExist _).
Qed.

Lemma path_of_inj (s : FileStorage.t) (k k2 : string) :
  ~ degenerate k -> sanitizeKey k <> sanitizeKey k2 -> path_of s k <> path_of s k2.
Proof.
  intros Hk Hne. rewrite (path_of_proper s k Hk), (path_of_cases s k2).
  unfold filepath.clean_step.
  repeat case_decide;
    try (intros Heq; apply (f_equal length) in Heq;
         rewrite length_app, ?removelast_take, ?length_take in Heq;
         simpl in Heq; lia).
  by intros [_ [= ?]]%app_inj_tail.
Qed.

Lemma Get_other_Set (ctx ctx' : Context) (k k2 : string) (d : bytes)
    (st : FileStorage.state) :
  mounted st -> path_of st.1 k <> path_of st.1 k2 ->
  (FileStorage.Get ctx' k2 (FileStorage.Set_ ctx k d st).2).1 =
    (FileStorage.Get ctx' k2 st).1.
Proof.
  destruct st as [s fs]. cbn [fst]. intros Hm Hne.
  pose proof (Set_keeps_mounted ctx k d (s, fs) Hm) as Hm'. revert Hm'.
  destruct (Err ctx) as [err|] eqn:Hctx.
  { unfold FileStorage.Set_. by rewrite Hctx. }
  rewrite (Set_on_mounted _ _ _ _ _ Hm Hctx). unfold os.WriteFile.
  destruct (os.is_dir (path_of s k) fs); [done|].
  destruct (os.is_file (path_of s k) fs || os.is_dir (filepath.Dir (path_of s k)) fs);
    [|done].
  pose proof (lookup_errno_mounted (s, fs) k2 Hm) as Herrno. cbn [fst snd] in Herrno.
  destruct (present (path_of s k) fs); cbn [snd]; intros Hm';
    pose proof (lookup_errno_mounted _ k2 Hm') as Herrno'; cbn [fst snd] in Herrno';
    (apply Get_same; [done | by apply lookup_insert_ne | done |]);
    rewrite Herrno; exact Herrno'.
Qed.

Lemma lookup_errno_files (p : path) (fs fs' : os.FileSys) :
  os.files fs' = os.files fs -> os.lookup_errno p fs' = os.lookup_errno p fs.
Proof. unfold os.lookup_errno, os.is_file. by intros ->. Qed.

Lemma Get_other_Delete (ctx ctx' : Context) (k k2 : string) (st : FileStorage.state) :
  mounted st -> path_of st.1 k <> path_of st.1 k2 ->
  (FileStorage.Get ctx' k2 (FileStorage.Delete ctx k st).2).1 =
    (FileStorage.Get ctx' k2 st).1.
Proof.
  destruct st as [s fs]. cbn [fst]. intros Hm Hne.
  destruct (Err ctx) as [err|] eqn:Hctx.
  { unfold FileStorage.Delete. by rewrite Hctx. }
  rewrite (Delete_on_mounted _ _ _ _ Hm Hctx).
  destruct (present (path_of s k) fs); [|done]. unfold os.Remove.
  pose proof (lookup_errno_mounted (s, fs) k2 Hm) as Herrno. cbn [fst snd] in Herrno.
  destruct (os.is_file (path_of s k) fs).
  - cbn [snd]. apply Get_same; [done | by apply lookup_delete_ne | done |].
    rewrite Herrno. apply lookup_errno_no_file. intros n.
    rewrite is_file_delete. destruct (Hm n) as [_ Hf]. cbn [fst snd] in Hf.
    by rewrite Hf, andb_false_r.
  - destruct (os.is_dir (path_of s k) fs); [|done].
    destruct (os.has_children (path_of s k) fs); [done|].
    destruct (decide (path_of s k = [])) as [?|_]; [done|]. cbn [snd].
    apply Get_same; [done | done | |by apply lookup_errno_files].
    rewrite is_dir_remove. by rewrite (bool_decide_eq_false_2 _ Hne).
Qed.


End FileMore.

(** X11: the file of a key never lies outside the base directory.  The
    sanitized name has no separator and no two dots side by side, so the path
    that [Get], [Set] and [Delete] work on is the base directory with that one
    name added, or the base directory itself when the name is empty or
    ".". *)
Theorem sanitizeKey_no_traversal (s : FileStorage.t) (k : string) :
  has_char "/" (sanitizeKey k) = false /\
  has_dotdot (sanitizeKey k) = false /\
  (~ degenerate k ->
     FileStore.path_of s k = FileStorage.baseDir s ++ [sanitizeKey k]) /\
  (degenerate k -> FileStore.path_of s k = FileStorage.baseDir s).
Proof.
  split_and!.
  - apply sanitizeKey_no_slash.
  - apply sanitizeKey_no_dotdot.
  - apply path_of_proper.
  - apply path_of_degenerate.
Qed.

Lemma sanitizeKey_no_traversal_witness :
  FileStore.path_of empty_dir.1 "../../etc/passwd" = ["srv"; "image_cache"; "etc_passwd"].
Proof.
  destruct (sanitizeKey_no_traversal empty_dir.1 "../../etc/passwd")
    as (_ & _ & Hp & _).
  rewrite Hp; [by vm_compute|]. intros [H|H]; by vm_compute in H.
Defined.



(** X13: a key whose sanitized name is empty or "." (such as "_", "/", "."
    or "..") names the base directory.  With the base directory there and a
    live context, [Set] of such a key fails on the write and changes nothing;
    [Get] returns the directory opened, whose read fails; [Delete] fails when
    the directory has entries, and when it has none it removes the base
    directory itself, returns nil and takes one off the count. *)
Theorem FileStorage_degenerate_key (ctx : Context) (k : string) (d : bytes)
    (st : FileStorage.state) :
  degenerate k -> FileStore.mounted st -> Err ctx = None ->
  let base := FileStorage.baseDir st.1 in
  FileStorage.Set_ ctx k d st =
    (Some (Errorf_w "failed to write file: " (PathError "open" base EISDIR)), st) /\
  FileStorage.Get ctx k st =
    (inl {| rc_data := []; rc_err := Some (PathError "read" base EISDIR) |}, st) /\
  (os.has_children base st.2 = true ->
     FileStorage.Delete ctx k st =
       (Some (Errorf_w "failed to delete file: " (PathError "remove" base ENOTEMPTY)),
        st)) /\
  (os.has_children base st.2 = false -> base <> [] ->
     FileStorage.Delete ctx k st =
       (None, ({| FileStorage.baseDir := base;
                  FileStorage.size := int_add (FileStorage.size st.1) (-1) |},
               {| os.files := os.files st.2; os.dirs := os.dirs st.2 ∖ {[base]} |}))).
Proof.
  destruct st as [s fs]. cbn [fst snd]. intros Hk Hm Hctx.
  pose proof (path_of_degenerate s k Hk) as Hp.
  destruct (mounted_base _ Hm) as [Hdir Hfile]. cbn [fst snd] in Hdir, Hfile.
  split_and!.
  - rewrite <- Hp in Hdir. rewrite (Set_dir _ _ _ _ _ Hm Hctx Hdir). by rewrite Hp.
  - rewrite Get_live; [|done|exact (lookup_errno_mounted (s, fs) k Hm)].
    by rewrite Hp, (is_file_lookup _ _ Hfile), Hdir.
  - intros Hch. rewrite (Delete_on_mounted _ _ _ _ Hm Hctx). unfold FileStore.present.
    rewrite Hp. unfold os.Remove. by rewrite Hfile, Hdir, Hch.
  - intros Hch Hne. rewrite (Delete_on_mounted _ _ _ _ Hm Hctx). unfold FileStore.present.
    rewrite Hp. unfold os.Remove. rewrite Hfile, Hdir, Hch. cbn [orb].
    by rewrite decide_False.
Qed.

Lemma FileStorage_degenerate_key_witness :
  (FileStorage.Set_ Background ".." (bytes_of "value1") empty_dir).1 <> None /\
  (FileStorage.Size (FileStorage.Delete Background ".." empty_dir).2).1 = -1 /\
  os.is_dir ["srv"; "image_cache"] (FileStorage.Delete Background ".." empty_dir).2.2 = false.
Proof.
  assert (degenerate "..") as Hk by (left; by vm_compute).
  destruct (FileStorage_degenerate_key Background ".." (bytes_of "value1") empty_dir
              Hk empty_dir_mounted eq_refl) as (HSet & _ & _ & HDel).
  rewrite HSet, HDel; [|by vm_compute|done]. split_and!; [done | by vm_compute |].
  by vm_compute.
Defined.


Lemma empty_dir_tree_ok : tree_ok empty_dir.2.
Proof. intros p Hp. by vm_compute in Hp. Qed.


(** X15: with the base directory there, a [Set] or a [Delete] of one key,
    whatever it returns, leaves what [Get] returns for every key with another
    sanitized name (the first name being a name: not empty, not "."). *)
Theorem FileStorage_other_keys (ctx ctx' : Context) (k k2 : string) (d : bytes)
    (st : FileStorage.state) :
  FileStore.mounted st -> ~ degenerate k -> sanitizeKey k <> sanitizeKey k2 ->
  (FileStorage.Get ctx' k2 (FileStorage.Set_ ctx k d st).2).1 =
    (FileStorage.Get ctx' k2 st).1 /\
  (FileStorage.Get ctx' k2 (FileStorage.Delete ctx k st).2).1 =
    (FileStorage.Get ctx' k2 st).1.
Proof.
  intros Hm Hk Hne. pose proof (path_of_inj st.1 k k2 Hk Hne) as Hp.
  split; [by apply Get_other_Set | by apply Get_other_Delete].
Qed.

Lemma FileStorage_other_keys_witness :
  (FileStorage.Get Background "key2"
     (FileStorage.Set_ Background "key1" (bytes_of "value1") empty_dir).2).1 =
    inr ErrNotExist.
Proof.
  destruct (FileStorage_other_keys Background Background "key1" "key2"
              (bytes_of "value1") empty_dir empty_dir_mounted) as [-> _].
  - intros [H|H]; by vm_compute in H.
  - by vm_compute.
  - by vm_compute.
Defined.

(** X16: the count is the number of entries.  From a store whose base
    directory is there and whose count is the number of entries of the base
    directory (files and directories directly in it), the number
    [NewFileStorage] takes from [os.ReadDir], every run of [Get], [Set] and
    [Delete] calls, under any contexts and whatever they return, leaves
    [Size] equal to the number of entries of the base directory (as an
    [int]), the base directory still there, provided no [Delete] is of a key
    that names the base directory itself. *)
Theorem FileStorage_size_counts (ops : list FileOp) (st : FileStorage.state) :
  counted st -> Forall keeps_base ops ->
  FileStore.mounted (run_ops ops st) /\
  (FileStorage.Size (run_ops ops st)).1 =
    wrap (Z.of_nat (size (children (FileStorage.baseDir (run_ops ops st).1)
                                   (run_ops ops st).2))).
Proof.
  intros Hc Hops. destruct (counted_run ops st Hc Hops) as (Hm & _ & Hsz).
  by split.
Qed.

Lemma FileStorage_size_counts_witness :
  (FileStorage.Size
     (run_ops [FSet Background "key1" (bytes_of "value1");
               FSet Background "key2" (bytes_of "value2");
               FSet Cancelled "key3" (bytes_of "value3");
               FDelete Background "key1";
               FDelete Background "key4"] empty_dir)).1 = 1.
Proof.
  destruct (FileStorage_size_counts
              [FSet Background "key1" (bytes_of "value1");
               FSet Background "key2" (bytes_of "value2");
               FSet Cancelled "key3" (bytes_of "value3");
               FDelete Background "key1";
               FDelete Background "key4"] empty_dir) as [_ Hsz].
  - split_and!; [apply empty_dir_mounted | apply empty_dir_tree_ok | by vm_compute].
  - repeat (apply Forall_cons; split); try apply Forall_nil; try exact I;
      intros [H|H]; by vm_compute in H.
  - by vm_compute.
Defined.

(** ** The memory store *)

(** X17: in the memory store, under live contexts, [Get] after a [Set] of
    the key returns the bytes set, [Get] after a [Delete] of the key returns
    [os.ErrNotExist], and a [Set] or a [Delete] of one key leaves what [Get]
    returns for every other key. *)
Theorem MemoryStorage_Set_Get (ctx ctx' : Context) (k k2 : string) (d : bytes)
    (s : MemoryStorage.t) :
  Err ctx = None -> Err ctx' = None ->
  (MemoryStorage.Get ctx' k (MemoryStorage.Set_ ctx k d s).2).1 = inl (NopCloser d) /\
  (MemoryStorage.Get ctx' k (MemoryStorage.Delete ctx k s).2).1 = inr ErrNotExist /\
  (k2 <> k ->
     (MemoryStorage.Get ctx' k2 (MemoryStorage.Set_ ctx k d s).2).1 =
       (MemoryStorage.Get ctx' k2 s).1 /\
     (MemoryStorage.Get ctx' k2 (MemoryStorage.Delete ctx k s).2).1 =
       (MemoryStorage.Get ctx' k2 s).1).
Proof.
  intros Hctx Hctx'.
  unfold MemoryStorage.Get, MemoryStorage.Set_, MemoryStorage.Delete.
  rewrite Hctx, Hctx'. cbn [snd MemoryStorage.data]. split_and!.
  - by rewrite lookup_insert_eq.
  - by rewrite lookup_delete_eq.
  - intros Hne. rewrite lookup_insert_ne, lookup_delete_ne by done.
    by destruct (MemoryStorage.data s !! k2).
Qed.

Lemma MemoryStorage_Set_Get_witness :
  (MemoryStorage.Get Background "key1"
     (MemoryStorage.Set_ Background "key1" (bytes_of "new") stored_key1).2).1 =
    inl (NopCloser (bytes_of "new")) /\
  (MemoryStorage.Get Background "key1"
     (MemoryStorage.Delete Background "key2" stored_key1).2).1 =
    inl (NopCloser (bytes_of "value1")).
Proof.
  destruct (MemoryStorage_Set_Get Background Background "key1" "key1" (bytes_of "new")
              stored_key1 eq_refl eq_refl) as (HSet & _).
  destruct (MemoryStorage_Set_Get Background Background "key2" "key1" []
              stored_key1 eq_refl eq_refl) as (_ & _ & Hother).
  split; [exact HSet|]. destruct Hother as [_ ->]; [done | by vm_compute].
Defined.

(** X18: in the memory store, under a live context, a [Set] adds one to what
    [Size] returns when the store had no entry for the key and leaves it when
    it had one; a [Delete] takes one off when the store had an entry for the
    key and leaves it when it had none. *)
Theorem MemoryStorage_Size_steps (ctx : Context) (k : string) (d : bytes)
    (s : MemoryStorage.t) :
  Err ctx = None ->
  (MemoryStorage.Size (MemoryStorage.Set_ ctx k d s).2).1 =
    match MemoryStorage.data s !! k with
    | Some _ => (MemoryStorage.Size s).1
    | None => (MemoryStorage.Size s).1 + 1
    end /\
  (MemoryStorage.Size (MemoryStorage.Delete ctx k s).2).1 =
    match MemoryStorage.data s !! k with
    | Some _ => (MemoryStorage.Size s).1 - 1
    | None => (MemoryStorage.Size s).1
    end.
Proof.
  intros Hctx. unfold MemoryStorage.Size, MemoryStorage.Set_, MemoryStorage.Delete.
  rewrite Hctx. cbn [fst snd MemoryStorage.data].
  destruct (MemoryStorage.data s !! k) as [old|] eqn:Hk.
  - rewrite (map_size_insert_Some _ _ _ (mk_is_Some _ _ Hk)).
    split; [done|]. rewrite (map_size_delete_Some _ _ (mk_is_Some _ _ Hk)).
    assert (size (MemoryStorage.data s) <> 0)%nat
      by (apply map_size_ne_0_lookup; eauto).
    lia.
  - rewrite (map_size_insert_None _ _ _ Hk), (map_size_delete_None _ _ Hk).
    split; [lia | done].
Qed.

Lemma MemoryStorage_Size_steps_witness :
  (MemoryStorage.Size
     (MemoryStorage.Set_ Background "key2" (bytes_of "value2") stored_key1).2).1 = 2 /\
  (MemoryStorage.Size (MemoryStorage.Delete Background "key1" stored_key1).2).1 = 0.
Proof.
  destruct (MemoryStorage_Size_steps Background "key2" (bytes_of "value2")
              stored_key1 eq_refl) as [-> _].
  destruct (MemoryStorage_Size_steps Background "key1" [] stored_key1 eq_refl)
    as [_ ->].
  by vm_compute.
Defined.

(** ** A miss that fails *)

(** X19: when the key is not in the index and the store's [Get] returns an
    error, or returns a reader whose read fails, the cache's [Get] returns
    that error as it is and caches nothing: the list and the map of the index
    are as they were. *)
Theorem Get_miss_error {S} `{Storage S} (ctx : Context) (k : string)
    (c : LRUCache.t S) (res : ReadCloser + error) (s : S) (err : error) :
  items c !! k = None ->
  Storage_Get ctx k (storage c) = (res, s) ->
  res = inr err \/ (exists r, res = inl r /\ rc_err r = Some err) ->
  Get ctx k c = (inr err, with_storage c s) /\
  list_ (Get ctx k c).2 = list_ c /\ items (Get ctx k c).2 = items c.
Proof.
  intros Hit HGet Hres. unfold Get. rewrite Hit, HGet.
  destruct Hres as [->|(r & -> & Hr)]; [done|].
  unfold ReadAll. by rewrite Hr.
Qed.

(** Over the file store, "." names the base directory: the store opens it,
    the read fails, and the cache returns the error of the read. *)
Lemma Get_miss_error_witness :
  Get Background "." (NewLRUCache 2 empty_dir) =
    (inr (PathError "read" ["srv"; "image_cache"] EISDIR), NewLRUCache 2 empty_dir).
Proof.
  destruct (Get_miss_error Background "." (NewLRUCache 2 empty_dir)
              (inl {| rc_data := [];
                      rc_err := Some (PathError "read" ["srv"; "image_cache"] EISDIR) |})
              empty_dir (PathError "read" ["srv"; "image_cache"] EISDIR))
    as [HGet _].
  - done.
  - by vm_compute.
  - right. eexists. by split.
  - exact HGet.
Defined.

(** ** The server *)

Section Server.

Lemma Split_cons (s : string) (sep : ascii) :
  exists piece pieces, strings.Split s sep = piece :: pieces.
Proof.
  induction s as [|c s (piece & pieces & IH)]; cbn [strings.Split]; [by eauto|].
  destruct (Ascii.eqb c sep); [by eauto|]. rewrite IH. eauto.
Qed.

Lemma Join_cons (e e' : string) (rest : list string) (sep : string) :
  strings.Join (e :: e' :: rest) sep = e +:+ sep +:+ strings.Join (e' :: rest) sep.
Proof. done. Qed.

Lemma Join_Split (s : string) (sep : ascii) :
  strings.Join (strings.Split s sep) (String sep EmptyString) = s.
Proof.
  induction s as [|c s IH]; [done|]. cbn [strings.Split].
  destruct (Split_cons s sep) as (piece & pieces & Hs). rewrite Hs in *.
  destruct (Ascii.eqb c sep) eqn:Hc.
  - apply Ascii.eqb_eq in Hc as ->. rewrite Join_cons, IH. done.
  - destruct pieces as [|piece' pieces]; [cbn [strings.Join] in *; by rewrite IH|].
    rewrite Join_cons in *. by rewrite <- IH.
Qed.

Lemma Split_app (a rest : string) (sep : ascii) :
  has_char sep a = false ->
  strings.Split (a +:+ String sep rest) sep = a :: strings.Split rest sep.
Proof.
  induction a as [|c a IH]; cbn [has_char].
  - intros _. change ("" +:+ String sep rest) with (String sep rest).
    cbn [strings.Split]. by rewrite Ascii.eqb_refl.
  - intros [Hc Ha]%orb_false_elim.
    change (String c a +:+ String sep rest) with (String c (a +:+ String sep rest)).
    cbn [strings.Split]. by rewrite Hc, (IH Ha).
Qed.

Lemma length_Split (s : string) (sep : ascii) :
  length (strings.Split s sep) = S (count_char sep s).
Proof.
  induction s as [|c s IH]; [done|]. cbn [strings.Split count_char].
  destruct (Split_cons s sep) as (piece & pieces & Hs). rewrite Hs in *.
  destruct (Ascii.eqb c sep); cbn [length] in *; lia.
Qed.

Lemma digits_no_slash (s : string) (acc n : Z) :
  strconv.digits s acc = Some n -> has_char "/" s = false.
Proof.
  revert acc. induction s as [|c s IH]; intros acc; [done|].
  cbn [strconv.digits has_char].
  destruct (strconv.digit c) as [d|] eqn:Hd; [|done]. intros Hs.
  rewrite (IH _ Hs), orb_false_r. apply Ascii.eqb_neq. intros ->. done.
Qed.

Lemma Atoi_no_slash (s : string) (n : Z) :
  strconv.Atoi s = Some n -> has_char "/" s = false.
Proof.
  unfold strconv.Atoi.
  assert (forall body : string, forall neg : bool,
    (if decide (body = "") then None
     else match strconv.digits body 0 with
          | None => None
          | Some n0 =>
              if decide (- 2 ^ 63 <= (if neg then - n0 else n0) < 2 ^ 63)
              then Some (if neg then - n0 else n0) else None
          end) = Some n -> has_char "/" body = false) as Hbody.
  { intros body neg. destruct (decide (body = "")); [done|].
    destruct (strconv.digits body 0) eqn:Hd; [|done]. intros _.
    by apply digits_no_slash in Hd. }
  destruct s as [|c s]; [done|].
  destruct (decide (c = "-"%char)) as [->|Hm].
  { intros Hs. apply (Hbody s true) in Hs. cbn [has_char]. by rewrite Hs. }
  destruct (decide (c = "+"%char)) as [->|Hp].
  { intros Hs. apply (Hbody s false) in Hs. cbn [has_char]. by rewrite Hs. }
  replace (match String c s with
           | String "-" s' => (true, s')
           | String "+" s' => (false, s')
           | _ => (false, String c s)
           end) with (false, String c s); [by apply (Hbody _ false)|].
  destruct c as [[] [] [] [] [] [] [] []]; done.
Qed.

End Server.

(** X20: the handler of ["/fill/"] on a path "/fill/<width>/<height>/<url>",
    where the width and the height are integers [strconv.Atoi] accepts
    (negative ones and zero included) and the URL is not empty: the processor
    is called with the URL as it stands in the path, further slashes
    included, and with the two numbers; its error is answered with status
    500 and the message of the error, its result with status 200, the content
    type and the length of the bytes. *)
Theorem fillHandler_request
    (ProcessImage : Context -> string -> Z -> Z -> (bytes * string) + error)
    (ctx : Context) (w h url : string) (width height : Z) :
  strconv.Atoi w = Some width ->
  strconv.Atoi h = Some height ->
  url <> "" ->
  main.fillHandler ProcessImage ctx ("/fill/" +:+ w +:+ "/" +:+ h +:+ "/" +:+ url) =
    match ProcessImage ctx url width height with
    | inr err => http.Error (Error err) 500
    | inl (data, contentType) =>
        http.Written contentType (Z.of_nat (length data)) 200 data
    end.
Proof.
  intros Hw Hh Hurl. unfold main.fillHandler.
  change ("/fill/" +:+ w +:+ "/" +:+ h +:+ "/" +:+ url)
    with ("" +:+ String "/" ("fill" +:+ String "/" (w +:+ String "/"
            (h +:+ String "/" url)))).
  rewrite !Split_app by (done || by eapply Atoi_no_slash).
  destruct (Split_cons url "/") as (piece & pieces & Hs).
  rewrite decide_False by (rewrite Hs; simpl; lia).
  change ((_ :: _ :: w :: _) !!! 2%nat) with w.
  change ((_ :: _ :: _ :: h :: _) !!! 3%nat) with h.
  rewrite Hw, Hh. cbn [drop]. rewrite drop_0.
  rewrite (Join_Split url "/"), decide_False by done. done.
Qed.

Lemma fillHandler_request_witness :
  main.fillHandler (fun _ url _ _ => inl (bytes_of url, "image/jpeg")) Background
    "/fill/300/-200/example.com/images/a.jpg" =
  http.Written "image/jpeg" 24 200 (bytes_of "example.com/images/a.jpg").
Proof.
  assert ("example.com/images/a.jpg" <> "") as Hurl by done.
  exact (fillHandler_request (fun _ url _ _ => inl (bytes_of url, "image/jpeg"))
           Background "300" "-200" "example.com/images/a.jpg" 300 (-200)
           eq_refl eq_refl Hurl).
Defined.

(** X21: the handler answers "Invalid URL format" with status 400 exactly
    when the path has fewer than four slashes, whatever the processor
    does. *)
Theorem fillHandler_invalid_format
    (ProcessImage : Context -> string -> Z -> Z -> (bytes * string) + error)
    (ctx : Context) (path : string) :
  main.fillHandler ProcessImage ctx path = http.Error "Invalid URL format" 400 <->
  (count_char "/" path < 4)%nat.
Proof.
  unfold main.fillHandler. rewrite length_Split.
  destruct (decide (S (count_char "/" path) < 5)%nat) as [Hlt|Hge].
  - split; [lia | done].
  - split; [|lia]. intros Hres. exfalso.
    destruct (strconv.Atoi _); [|done]. destruct (strconv.Atoi _); [|done].
    destruct (decide _); [done|].
    by destruct (ProcessImage _ _ _ _) as [[data contentType]|err].
Qed.


